(** * go-expandenv: placeholder expansion over decoded configuration trees

    A shallow embedding of [Expand], [ExpandMap], [ExpandEnv] and
    [expandValue] of package [expandenv], together with the parts of the Go
    standard library they call ([regexp], [strconv.Atoi], [strings], [fmt]),
    and the properties of the expansion algorithm.

    Go strings are byte sequences: they are modelled by [string], whose
    characters ([ascii]) are bytes.  The patterns of the package only
    mention ASCII characters and classes of the form "every character but
    one ASCII character", so matching byte by byte agrees with Go's
    matching rune by rune.

    An [error] is its message.  A function that returns [(T, error)] with
    one of the two nil returns a sum; the lookup function, which may return
    both or neither, returns a pair of options.  The errors a closure
    appends to a slice it captured are returned by the model of the closure
    and appended by the caller.

    Reading and printing a [float64] are parameters of the development, as
    is the type of the values [Expand] passes through untouched. *)

From Stdlib Require Import Bool Arith ZArith List Lia.
From Stdlib Require Import Strings.Ascii Strings.String.
From Stdlib Require Import Numbers.DecimalString.
From Stdlib Require Import Floats.PrimFloat.
Import ListNotations.

Local Open Scope string_scope.
Local Open Scope bool_scope.

(** ** Package [regexp]: the fragment used by the package

    Go's [regexp] returns the match a backtracking matcher finds first
    (leftmost, then by priority: greedy repetition, left alternative).  The
    matcher below is that backtracking matcher in continuation-passing
    style.  Repetition is restricted to single-character classes, which is
    all the three patterns use. *)

Module Regexp.

(** Character classes. *)
Inductive cclass : Type :=
| COnly (c : ascii)     (* a literal character *)
| CExcept (c : ascii)   (* [^c]; matches newline too *)
| CDot.                 (* .   ; every character but newline *)

Definition newline : ascii := "010"%char.

Definition cmatch (cl : cclass) (a : ascii) : bool :=
  match cl with
  | COnly c => Ascii.eqb a c
  | CExcept c => negb (Ascii.eqb a c)
  | CDot => negb (Ascii.eqb a newline)
  end.

Inductive regex : Type :=
| BeginText                          (* ^ *)
| EndText                            (* $ *)
| Lit (l : string)                   (* a literal string *)
| Star (cl : cclass)                 (* cl*, greedy *)
| Plus (cl : cclass)                 (* cl+, greedy *)
| Cat (r1 r2 : regex)                (* r1 r2 *)
| Alt (r1 r2 : regex)                (* r1|r2, left first *)
| Opt (r : regex)                    (* r?, greedy *)
| Group (name : string) (r : regex). (* (?P<name>r) *)

(** Captured groups, most recent first. *)
Definition captures : Type := list (string * string).

Fixpoint capture (name : string) (c : captures) : string :=
  match c with
  | [] => ""
  | (n, v) :: c' => if String.eqb n name then v else capture name c'
  end.

(** The first [n] bytes of [s] and what follows them. *)
Fixpoint take (n : nat) (s : string) : string :=
  match n, s with
  | S n', String a s' => String a (take n' s')
  | _, _ => ""
  end.

Fixpoint drop (n : nat) (s : string) : string :=
  match n, s with
  | S n', String _ s' => drop n' s'
  | _, _ => s
  end.

(** A continuation receives the position reached, the text that remains
    and the groups captured so far; it answers with the end of the match. *)
Definition cont : Type := nat -> string -> captures -> option (nat * captures).

Fixpoint lit (l : string) (k : cont) (pos : nat) (s : string) (c : captures)
  : option (nat * captures) :=
  match l with
  | "" => k pos s c
  | String a l' =>
      match s with
      | String b s' => if Ascii.eqb a b then lit l' k (S pos) s' c else None
      | "" => None
      end
  end.

Fixpoint star (cl : cclass) (k : cont) (pos : nat) (s : string) (c : captures)
  : option (nat * captures) :=
  match s with
  | String a s' =>
      if cmatch cl a then
        match star cl k (S pos) s' c with
        | Some m => Some m
        | None => k pos s c
        end
      else k pos s c
  | "" => k pos s c
  end.

Definition plus (cl : cclass) (k : cont) (pos : nat) (s : string) (c : captures)
  : option (nat * captures) :=
  match s with
  | String a s' => if cmatch cl a then star cl k (S pos) s' c else None
  | "" => None
  end.

Fixpoint run (r : regex) (k : cont) (pos : nat) (s : string) (c : captures)
  : option (nat * captures) :=
  match r with
  | BeginText => if Nat.eqb pos 0 then k pos s c else None
  | EndText => match s with "" => k pos s c | String _ _ => None end
  | Lit l => lit l k pos s c
  | Star cl => star cl k pos s c
  | Plus cl => plus cl k pos s c
  | Cat r1 r2 => run r1 (run r2 k) pos s c
  | Alt r1 r2 =>
      match run r1 k pos s c with
      | Some m => Some m
      | None => run r2 k pos s c
      end
  | Opt r' =>
      match run r' k pos s c with
      | Some m => Some m
      | None => k pos s c
      end
  | Group name r' =>
      run r' (fun pos' s' c' => k pos' s' ((name, take (pos' - pos) s) :: c')) pos s c
  end.

Definition accept : cont := fun pos _ c => Some (pos, c).

(** The match of [r] that starts at position [pos], where [s] is the text
    from [pos] on: the end position and the groups. *)
Definition matchAt (r : regex) (pos : nat) (s : string) : option (nat * captures) :=
  run r accept pos s [].

(** Leftmost match at or after [pos]. *)
Fixpoint search (r : regex) (pos : nat) (s : string) : option (nat * nat * captures) :=
  match matchAt r pos s with
  | Some (e, c) => Some (pos, e, c)
  | None =>
      match s with
      | String _ s' => search r (S pos) s'
      | "" => None
      end
  end.

(** [re.FindStringSubmatch(s)]: [None] is Go's [nil]; otherwise the groups
    of the leftmost match, a group that took no part reading as [""]. *)
Definition FindStringSubmatch (r : regex) (s : string) : option captures :=
  match search r 0 s with
  | Some (_, _, c) => Some c
  | None => None
  end.

(** [re.ReplaceAllStringFunc(src, repl)], for a pattern that never matches
    the empty string.  The callback of the package appends to a slice of
    errors it closes over; here it returns the errors it appended, and the
    result carries all of them in call order.  [skip] counts the bytes of
    the current match that are still to be passed over. *)
Fixpoint replaceFrom {E : Type} (r : regex) (repl : string -> string * list E)
    (skip pos : nat) (s : string) : string * list E :=
  match s with
  | "" => ("", [])
  | String a s' =>
      match skip with
      | S skip' => replaceFrom r repl skip' (S pos) s'
      | O =>
          match matchAt r pos s with
          | Some (e, _) =>
              let (out, errs) := repl (take (e - pos) s) in
              let (out', errs') := replaceFrom r repl (e - pos - 1) (S pos) s' in
              (out ++ out', (errs ++ errs')%list)
          | None =>
              let (out', errs') := replaceFrom r repl 0 (S pos) s' in
              (String a out', errs')
          end
      end
  end.

Definition ReplaceAllStringFunc {E : Type} (r : regex) (src : string)
    (repl : string -> string * list E) : string * list E :=
  replaceFrom r repl 0 0 src.

End Regexp.

Import Regexp.

Definition singleRegex : regex :=
  Cat BeginText (Cat (Lit "${") (Cat (Plus (CExcept "}")) (Cat (Lit "}") EndText))).

Definition detectRegex : regex :=
  Cat (Opt (Lit "\")) (Cat (Lit "${") (Cat (Plus (CExcept "}")) (Lit "}"))).

(** What follows the name in the pattern of [expandValue]. *)
Definition formatGroup : regex :=
  Group "hasFormat"
    (Cat (Lit ":")
         (Group "format" (Alt (Lit "number") (Alt (Lit "boolean") (Lit "string"))))).

Definition fallbackGroup : regex :=
  Group "hasFallback" (Cat (Lit ":-") (Group "fallback" (Star CDot))).

Definition valueTail : regex :=
  Cat (Opt formatGroup) (Cat (Opt fallbackGroup) (Cat (Lit "}") EndText)).

Definition valueRegex : regex :=
  Cat BeginText (Cat (Lit "${") (Cat (Group "name" (Plus (CExcept ":"))) valueTail)).

(** ** Package [strconv] *)

Module Strconv.

Definition isDigit (a : ascii) : bool :=
  (48 <=? nat_of_ascii a)%nat && (nat_of_ascii a <=? 57)%nat.

Definition digitVal (a : ascii) : Z := Z.of_nat (nat_of_ascii a - 48).

(** The value of a run of decimal digits; [None] when a byte is no digit. *)
Fixpoint digits (acc : Z) (s : string) : option Z :=
  match s with
  | "" => Some acc
  | String a s' => if isDigit a then digits (acc * 10 + digitVal a)%Z s' else None
  end.

(** [int] has 64 bits. *)
Definition minInt : Z := (- 2 ^ 63)%Z.
Definition maxInt : Z := (2 ^ 63 - 1)%Z.

(** [strconv.Atoi(s)]; [None] when Go returns an error (syntax or range).
    An optional sign, then at least one decimal digit, nothing else. *)
Definition Atoi (s : string) : option Z :=
  let '(neg, body) :=
    match s with
    | String "+" s' => (false, s')
    | String "-" s' => (true, s')
    | _ => (false, s)
    end in
  match body with
  | "" => None
  | _ =>
      match digits 0 body with
      | None => None
      | Some n =>
          let v := if neg then (- n)%Z else n in
          if (minInt <=? v)%Z && (v <=? maxInt)%Z then Some v else None
      end
  end.

(** [strconv.Itoa(n)], which is also how [fmt] prints an [int] with [%v]. *)
Definition Itoa (n : Z) : string := NilEmpty.string_of_int (Z.to_int n).

End Strconv.

(** ** Package [strings] *)

Module Strings.

Definition Join (elems : list string) (sep : string) : string :=
  String.concat sep elems.

Definition HasPrefix (s prefix : string) : bool := String.prefix prefix s.

(** Whether [substr] occurs in [s]. *)
Fixpoint Contains (s substr : string) : bool :=
  String.prefix substr s ||
  match s with
  | "" => false
  | String _ s' => Contains s' substr
  end.

End Strings.

(** ** Package [fmt]: a format string without operands

    [Expand] hands its joined error messages to [fmt.Errorf] as the format
    string, with no operand.  [Sprintf0 format] is what [fmt] prints then:
    text is copied, [%%] gives [%], and every other verb, having no operand,
    prints a [%!verb(MISSING)]-style marker. *)

Module Fmt.

Definition isFlag (a : ascii) : bool :=
  match a with
  | "#"%char | "0"%char | "+"%char | "-"%char | " "%char => true
  | _ => false
  end.

Fixpoint skipFlags (s : string) : string :=
  match s with
  | String a s' => if isFlag a then skipFlags s' else s
  | "" => ""
  end.

Definition tooLarge (x : Z) : bool := (1000000 <? x)%Z.

(** [parsenum]: whether a number was read and the text after it.  On a
    number that is too large the scan gives up and jumps to the end. *)
Fixpoint parsenum (num : Z) (isnum : bool) (s : string) : bool * string :=
  match s with
  | String a s' =>
      if Strconv.isDigit a then
        if tooLarge num then (false, "")
        else parsenum (num * 10 + Strconv.digitVal a)%Z true s'
      else (isnum, s)
  | "" => (isnum, "")
  end.

(** The text between the opening bracket and the first closing one. *)
Fixpoint upToBracket (s : string) : option string :=
  match s with
  | "" => None
  | String a s' =>
      if Ascii.eqb a "]" then Some ""
      else match upToBracket s' with
           | Some t => Some (String a t)
           | None => None
           end
  end.

(** [parseArgNumber] on a text that starts with the opening bracket: the
    width of the index and whether it is a well-formed [[n]]. *)
Definition parseArgNumber (s : string) : nat * bool :=
  if (String.length s <? 3)%nat then (1, false)
  else
    match upToBracket (drop 1 s) with
    | None => (1, false)
    | Some inner =>
        let wid := String.length inner + 2 in
        match parsenum 0 false inner with
        | (true, "") => (wid, true)
        | _ => (wid, false)
        end
    end.

(** [s] without its first byte, when that byte is [c]. *)
Definition after (c : ascii) (s : string) : option string :=
  match s with
  | String a s' => if Ascii.eqb a c then Some s' else None
  | "" => None
  end.

(** [argNumber] with no operand: the text after an explicit index, whether
    one was found, and whether the directive is now marked as having a bad
    index (with no operand every index is out of range). *)
Definition argNumber (s : string) : string * bool * bool :=
  match after "[" s with
  | Some _ => let (wid, ok) := parseArgNumber s in (drop wid s, ok, true)
  | None => (s, false, false)
  end.

Definition badWidthString : string := "%!(BADWIDTH)".
Definition badPrecString : string := "%!(BADPREC)".
Definition noVerbString : string := "%!(NOVERB)".
Definition percentBangString : string := "%!".
Definition missingString : string := "(MISSING)".
Definition badIndexString : string := "(BADINDEX)".

Definition inRange (lo hi : nat) (a : ascii) : bool :=
  (lo <=? nat_of_ascii a)%nat && (nat_of_ascii a <=? hi)%nat.

(** [utf8.DecodeRuneInString] followed by [WriteRune]: the bytes printed
    for the verb and the text after it.  Bytes that do not start a valid
    encoding are one byte wide and print as U+FFFD. *)
Definition decodeVerb (s : string) : string * string :=
  let invalid := (String "239" (String "191" (String "189" "")), drop 1 s) in
  let valid n := (take n s, drop n s) in
  match s with
  | "" => ("", "")
  | String b0 t =>
      let x := nat_of_ascii b0 in
      if (x <? 128)%nat then valid 1
      else
        let '(size, lo, hi) :=
          if inRange 194 223 b0 then (2, 128, 191)
          else if (x =? 224)%nat then (3, 160, 191)
          else if (x =? 237)%nat then (3, 128, 159)
          else if inRange 225 239 b0 then (3, 128, 191)
          else if (x =? 240)%nat then (4, 144, 191)
          else if inRange 241 243 b0 then (4, 128, 191)
          else if (x =? 244)%nat then (4, 128, 143)
          else (0, 0, 0) in
        match size, t with
        | 2, String b1 _ => if inRange lo hi b1 then valid 2 else invalid
        | 3, String b1 (String b2 _) =>
            if inRange lo hi b1 && inRange 128 191 b2 then valid 3 else invalid
        | 4, String b1 (String b2 (String b3 _)) =>
            if inRange lo hi b1 && inRange 128 191 b2 && inRange 128 191 b3
            then valid 4 else invalid
        | _, _ => invalid
        end
  end.

(** The width of a directive: what is printed for it, the text after it,
    whether an index was just read, and whether the index is now bad.  A
    star asks for an operand, and there is none. *)
Definition width (afterIndex : bool) (s : string) : string * string * bool * bool :=
  match after "*" s with
  | Some s' => (badWidthString, s', false, false)
  | None =>
      let (present, s') := parsenum 0 false s in
      ("", s', afterIndex, afterIndex && present)
  end.

(** The precision of a directive, likewise.  A dot opens a precision only
    when a byte follows it ([i+1 < end && format[i] == '.']); a dot that is
    the last byte of the format is left where it is, to be read as the
    verb. *)
Definition precision (afterIndex : bool) (s : string) : string * string * bool * bool :=
  match after "." s with
  | Some (String _ _ as s1) =>
      let '(s2, found, bad) := argNumber s1 in
      match after "*" s2 with
      | Some s3 => (badPrecString, s3, false, afterIndex || bad)
      | None =>
          let (_, s3) := parsenum 0 false s2 in
          ("", s3, found, afterIndex || bad)
      end
  | _ => ("", s, afterIndex, false)
  end.

(** The verb of a directive: what is printed for it and the text after. *)
Definition verb (goodArgNum : bool) (s : string) : string * string :=
  match s with
  | "" => (noVerbString, "")
  | String _ _ =>
      let (v, rest) := decodeVerb s in
      (if v =? "%" then "%"
       else if goodArgNum then percentBangString ++ v ++ missingString
       else percentBangString ++ v ++ badIndexString,
       rest)
  end.

(** One directive, from just after its [%]: what is printed and the text
    that follows the directive. *)
Definition directive (s : string) : string * string :=
  let s1 := skipFlags s in
  let '(s2, afterIndex, bad1) := argNumber s1 in
  let '(outW, s3, afterIndex3, bad3) := width afterIndex s2 in
  let '(outP, s4, afterIndex4, bad4) := precision afterIndex3 s3 in
  let '(s5, _, bad5) := if afterIndex4 then (s4, true, false) else argNumber s4 in
  let (out, rest) := verb (negb (bad1 || bad3 || bad4 || bad5)) s5 in
  (outW ++ outP ++ out, rest).

(** [doPrintf] with no operand.  Every round consumes at least one byte, so
    [fuel] bounds the rounds by the length of the format. *)
Fixpoint doPrintf (fuel : nat) (format : string) : string :=
  match fuel with
  | O => ""
  | S fuel' =>
      match format with
      | "" => ""
      | String a s' =>
          if Ascii.eqb a "%" then
            let (out, rest) := directive s' in out ++ doPrintf fuel' rest
          else String a (doPrintf fuel' s')
      end
  end.

Definition Sprintf0 (format : string) : string :=
  doPrintf (String.length format) format.

End Fmt.

(** An [error] is observed through its [Error()] message only. *)
Definition error : Type := string.

(** [fmt.Errorf(format)] called with a format string and no operand. *)
Definition Errorf0 (format : string) : error := Fmt.Sprintf0 format.

(** ** Floating point

    [float64] is IEEE binary64, that is [float].  Reading a decimal text
    into the nearest [float64] ([strconv.ParseFloat]) and printing the
    shortest decimal text of one ([%v]) are not modelled: the development
    is parametric in both.  The two tables below stand for them at the
    inputs of the examples. *)

Definition sampleParseFloat (s : string) : option float :=
  if s =? "42.5" then Some 42.5%float
  else if s =? "1e3" then Some 1000%float
  else None.

Definition sampleFormatFloat (f : float) : string :=
  if PrimFloat.eqb f 42.5%float then "42.5"
  else if PrimFloat.eqb f 1000%float then "1000"
  else "?".

(** A dynamic type [Expand] does not look for: [map[int]string], listed
    by its entries. *)
Definition sampleOther : Type := list (Z * string).

(** Two lookup functions for the examples: one that knows every name, and
    one that knows none and says so. *)
Definition sampleLookup (key : string) : option string * option error :=
  (Some (if key =? "N" then "42" else if key =? "F" then "42.5" else "abc"), None).

Definition failingLookup (key : string) : option string * option error :=
  (None, Some ("no " ++ key)).

(** ** Package [expandenv] *)

Section Expandenv.

(** Dynamic types other than the ones [Expand] looks for, such as
    [map[interface{}]interface{}] or [[]string]. *)
Variable other : Type.

(** [strconv.ParseFloat(s, 64)]; [None] when it returns an error. *)
Variable ParseFloat : string -> option float.

(** [fmt.Sprintf("%v", f)] for a [float64]. *)
Variable FormatFloat : float -> string.

#[local] Set Warnings "-register-all".

(** A value of type [interface{}], by dynamic type: [nil], [string],
    [int], [float64], [bool], [[]interface{}], [map[string]interface{}], or
    another type.  A map is listed in the order in which [range] visits its
    entries, which have distinct keys. *)
Inductive value : Type :=
| VNil
| VString (s : string)
| VInt (n : Z)
| VFloat (f : float)
| VBool (b : bool)
| VSlice (l : list value)             (* []interface{} *)
| VMap (m : list (string * value))    (* map[string]interface{} *)
| VOther (o : other).

(** What [expandValue] returns beside a nil error: a [string], an [int],
    a [float64] or a [bool]. *)
Inductive expanded : Type :=
| EString (s : string)
| EInt (n : Z)
| EFloat (f : float)
| EBool (b : bool).

Definition toValue (e : expanded) : value :=
  match e with
  | EString s => VString s
  | EInt n => VInt n
  | EFloat f => VFloat f
  | EBool b => VBool b
  end.

(** [fmt.Sprintf("%v", expanded)] *)
Definition Sprintv (e : expanded) : string :=
  match e with
  | EString s => s
  | EInt n => Strconv.Itoa n
  | EFloat f => FormatFloat f
  | EBool b => if b then "true" else "false"
  end.

(** [func(key string)] returning a [*string] and an [error];
    [None] is [nil]. *)
Definition VariableLookup : Type := string -> option string * option error.

(** The groups [expandValue] reads from its match. *)
Record placeholder : Type := Placeholder {
  name : string;
  format : string;
  hasFallback : bool;
  fallback : string
}.

Definition parseValue (str : string) : option placeholder :=
  match FindStringSubmatch valueRegex str with
  | None => None
  | Some p =>
      Some {| name := capture "name" p;
              format := capture "format" p;
              hasFallback := negb (capture "hasFallback" p =? "");
              fallback := capture "fallback" p |}
  end.

(** The [switch format] of [expandValue], on the text [*value].  The
    messages are made by [fmt.Errorf] with a [%s] operand, which is printed
    as it is. *)
Definition coerce (format value : string) : expanded + error :=
  if format =? "" then inl (EString value)
  else if format =? "string" then inl (EString value)
  else if format =? "number" then
    match Strconv.Atoi value with
    | Some formatted => inl (EInt formatted)
    | None =>
        match ParseFloat value with
        | Some formatted => inl (EFloat formatted)
        | None => inr (value ++ " is not a valid number")
        end
    end
  else if format =? "boolean" then
    if value =? "0" then inl (EBool false)
    else if value =? "1" then inl (EBool true)
    else if value =? "false" then inl (EBool false)
    else if value =? "true" then inl (EBool true)
    else if value =? "no" then inl (EBool false)
    else if value =? "yes" then inl (EBool true)
    else inr (value ++ " is not a valid boolean")
  else inr ("format " ++ format ++ " is not supported").

(** [expandValue] returns [(v, nil)], here [inl v], or [(nil, err)], here
    [inr err].  After [value = &fallback] the value is not nil, and the
    [switch] is on the fallback text. *)
Definition expandValue (str : string) (values : VariableLookup) : expanded + error :=
  match parseValue str with
  | None => inr ("could not parse " ++ str)
  | Some p =>
      let (value, err) := values (name p) in
      match err with
      | Some e =>
          if negb (hasFallback p) then inr e
          else coerce (format p) (fallback p)
      | None =>
          match value with
          | None => inl (EString str)
          | Some v => coerce (format p) v
          end
      end
  end.

(** The callback handed to [ReplaceAllStringFunc]. *)
Definition replaceMatch (values : VariableLookup) (str : string) : string * list error :=
  if Strings.HasPrefix str "\" then (drop 1 str, [])
  else
    match expandValue str values with
    | inr err => (str, [err])
    | inl expanded => (Sprintv expanded, [])
    end.

Definition expandString (values : VariableLookup) (current : string) : value * list error :=
  match FindStringSubmatch singleRegex current with
  | Some _ =>
      match expandValue current values with
      | inr err => (VString current, [err])
      | inl expanded => (toValue expanded, [])
      end
  | None =>
      let (expanded, errs) :=
        ReplaceAllStringFunc detectRegex current (replaceMatch values) in
      (VString expanded, errs)
  end.

(** [for i := range current], with the slice built so far and the errors. *)
Definition sliceLoop (recursion : value -> value * list error)
  : list value -> list value -> list error -> list value * list error :=
  fix loop (current current2 : list value) (errs : list error) :=
    match current with
    | [] => (current2, errs)
    | x :: rest =>
        let (v, err) := recursion x in
        loop rest (current2 ++ [v])%list (errs ++ err)%list
    end.

(** [current2[k] = v] *)
Fixpoint mapSet (k : string) (v : value) (m : list (string * value))
  : list (string * value) :=
  match m with
  | [] => [(k, v)]
  | (k', v') :: m' => if k' =? k then (k, v) :: m' else (k', v') :: mapSet k v m'
  end.

(** [for k, v := range current] *)
Definition mapLoop (recursion : value -> value * list error)
  : list (string * value) -> list (string * value) -> list error ->
    list (string * value) * list error :=
  fix loop (current current2 : list (string * value)) (errs : list error) :=
    match current with
    | [] => (current2, errs)
    | (k, v) :: rest =>
        let (v', err) := recursion v in
        loop rest (mapSet k v' current2) (errs ++ err)%list
    end.

Fixpoint recursion (values : VariableLookup) (current : value) : value * list error :=
  match current with
  | VString s => expandString values s
  | VSlice l =>
      let (current2, errs) := sliceLoop (recursion values) l [] [] in
      (VSlice current2, errs)
  | VMap m =>
      let (current2, errs) := mapLoop (recursion values) m [] [] in
      (VMap current2, errs)
  | _ => (current, [])
  end.

(** The error is [fmt.Errorf(strings.Join(errMsgs, ", "))]: the joined
    messages are the format string. *)
Definition Expand (input : value) (values : VariableLookup) : value * option error :=
  let (output, errs) := recursion values input in
  if (0 <? List.length errs)%nat
  then (output, Some (Errorf0 (Strings.Join errs ", ")))
  else (output, None).

(** [values[key]] on a [map[string]string] *)
Fixpoint mapIndex (values : list (string * string)) (key : string) : option string :=
  match values with
  | [] => None
  | (k, v) :: rest => if k =? key then Some v else mapIndex rest key
  end.

Definition ExpandMap (input : value) (values : list (string * string))
  : value * option error :=
  Expand input (fun key =>
    match mapIndex values key with
    | None => (None, Some ("variable " ++ key ++ " is missing"))
    | Some value => (Some value, None)
    end).

(** [ExpandEnv], given [os.LookupEnv] of the process. *)
Definition ExpandEnv (LookupEnv : string -> option string) (input : value)
  : value * option error :=
  Expand input (fun key =>
    match LookupEnv key with
    | None => (None, Some ("environment variable " ++ key ++ " is missing"))
    | Some value => (Some value, None)
    end).

(** *** Vocabulary of the statements *)

(** Every byte of [s] satisfies [p]. *)
Fixpoint allBytes (p : ascii -> bool) (s : string) : bool :=
  match s with
  | "" => true
  | String a s' => p a && allBytes p s'
  end.

(** The byte [c] does not occur in [s]. *)
Definition without (c : ascii) (s : string) : bool :=
  allBytes (cmatch (CExcept c)) s.

(** The first byte of [s] is [c]. *)
Definition startsWith (c : ascii) (s : string) : bool :=
  match s with
  | String a _ => Ascii.eqb a c
  | "" => false
  end.

(** The placeholder text [${name[:format][:-fallback]}]; [fmt = ""] stands
    for no format tag and [fb = None] for no fallback clause. *)
Definition token (nm fmt : string) (fb : option string) : string :=
  "${" ++ nm
       ++ (if fmt =? "" then "" else ":" ++ fmt)
       ++ match fb with Some f => ":-" ++ f | None => "" end
       ++ "}".

(** A name as the pattern of [Expand] and the pattern of [expandValue]
    both take it: not empty, without [:] and without the closing brace. *)
Definition validName (nm : string) : bool :=
  negb (nm =? "") && without ":" nm && without "}" nm.

(** A fallback text both patterns take: without the closing brace and
    without a line break. *)
Definition validFallback (fb : option string) : bool :=
  match fb with
  | Some f => without "}" f && without newline f
  | None => true
  end.

Definition isFormat (fmt : string) : bool :=
  (fmt =? "number") || (fmt =? "boolean") || (fmt =? "string").

(** The format tag of what follows the first colon of a placeholder: the
    text before the first [:-]. *)
Fixpoint formatTag (after : string) : string :=
  match after with
  | "" => ""
  | String a rest =>
      if Ascii.eqb a ":" && startsWith "-" rest then ""
      else String a (formatTag rest)
  end.

(** The text a placeholder is expanded from: the value the lookup returns
    without an error, or the fallback text when the lookup returns an
    error. *)
Definition resolvesTo (values : VariableLookup) (nm : string)
    (fb : option string) (t : string) : Prop :=
  values nm = (Some t, None)
  \/ exists v e, values nm = (v, Some e) /\ fb = Some t.

(** The message of the [default] case of [expandValue]. *)
Definition unsupportedFormat (fmt : string) : error :=
  "format " ++ fmt ++ " is not supported".

(** The message of a failed match in [expandValue]. *)
Definition couldNotParse (str : string) : error := "could not parse " ++ str.

(** The error [Expand] returns for the errors of a traversal. *)
Definition combined (errs : list error) : option error :=
  match errs with
  | [] => None
  | _ => Some (Errorf0 (Strings.Join errs ", "))
  end.

(** *** The earlier file, where [Expand] takes a map

    In that file the lookup is [values[name]] on a [map[string]string], the
    message for a missing name is fixed, and [ExpandEnv] first copies
    [os.Environ()] into a map.  The patterns are the same; the functions
    whose names the later file uses again carry the suffix [_v2]. *)

(** [result[key] = value] on a [map[string]string] *)
Fixpoint stringMapSet (k v : string) (m : list (string * string))
  : list (string * string) :=
  match m with
  | [] => [(k, v)]
  | (k', v') :: m' =>
      if k' =? k then (k, v) :: m' else (k', v') :: stringMapSet k v m'
  end.

(** The text before the first [sep] in [s] and the text after it. *)
Fixpoint cut (sep : ascii) (s : string) : option (string * string) :=
  match s with
  | "" => None
  | String a s' =>
      if Ascii.eqb a sep then Some ("", s')
      else match cut sep s' with
           | Some (before, after) => Some (String a before, after)
           | None => None
           end
  end.

(** [strings.SplitN(s, sep, 2)] for a separator of one byte. *)
Definition splitN2 (s : string) (sep : ascii) : list string :=
  match cut sep s with
  | Some (before, after) => [before; after]
  | None => [s]
  end.

(** The loop of [environMap] over [os.Environ()].  [None] is the panic of
    [splitted[1]] on an entry without an equals sign. *)
Fixpoint environLoop (entries : list string) (result : list (string * string))
  : option (list (string * string)) :=
  match entries with
  | [] => Some result
  | entry :: rest =>
      let splitted := splitN2 entry "=" in
      match nth_error splitted 0, nth_error splitted 1 with
      | Some key, Some value => environLoop rest (stringMapSet key value result)
      | _, _ => None
      end
  end.

Definition environMap (Environ : list string) : option (list (string * string)) :=
  environLoop Environ [].

Definition expandEnvValue (str : string) (values : list (string * string))
  : expanded + error :=
  match parseValue str with
  | None => inr ("could not parse " ++ str)
  | Some p =>
      match mapIndex values (name p) with
      | None =>
          if negb (hasFallback p)
          then inr ("environment variable " ++ name p ++ " is missing")
          else coerce (format p) (fallback p)
      | Some value => coerce (format p) value
      end
  end.

Definition replaceMatch_v2 (values : list (string * string)) (str : string)
  : string * list error :=
  if Strings.HasPrefix str "\" then (drop 1 str, [])
  else
    match expandEnvValue str values with
    | inr err => (str, [err])
    | inl expanded => (Sprintv expanded, [])
    end.

Definition expandString_v2 (values : list (string * string)) (current : string)
  : value * list error :=
  match FindStringSubmatch singleRegex current with
  | Some _ =>
      match expandEnvValue current values with
      | inr err => (VString current, [err])
      | inl expanded => (toValue expanded, [])
      end
  | None =>
      let (expanded, errs) :=
        ReplaceAllStringFunc detectRegex current (replaceMatch_v2 values) in
      (VString expanded, errs)
  end.

Fixpoint recursion_v2 (values : list (string * string)) (current : value)
  : value * list error :=
  match current with
  | VString s => expandString_v2 values s
  | VSlice l =>
      let (current2, errs) := sliceLoop (recursion_v2 values) l [] [] in
      (VSlice current2, errs)
  | VMap m =>
      let (current2, errs) := mapLoop (recursion_v2 values) m [] [] in
      (VMap current2, errs)
  | _ => (current, [])
  end.

Definition Expand_v2 (input : value) (values : list (string * string))
  : value * option error :=
  let (output, errs) := recursion_v2 values input in
  if (0 <? List.length errs)%nat
  then (output, Some (Errorf0 (Strings.Join errs ", ")))
  else (output, None).

(** [ExpandEnv] of that file, given [os.Environ()]; [None] is the panic of
    [environMap]. *)
Definition ExpandEnv_v2 (Environ : list string) (input : value)
  : option (value * option error) :=
  match environMap Environ with
  | Some values => Some (Expand_v2 input values)
  | None => None
  end.

(** *** The first file, where [expandEnvValue] reads the environment

    There the groups around the format and the fallback clause do not
    capture, a fallback is recognised by its text not being empty, and a
    number is read by [strconv.Atoi] only.  Names the later files use again
    carry the suffix [_v1]. *)

Definition valueRegex_v1 : regex :=
  Cat BeginText
    (Cat (Lit "${")
       (Cat (Group "name" (Plus (CExcept ":")))
          (Cat (Opt (Cat (Lit ":")
                       (Group "format"
                          (Alt (Lit "number") (Alt (Lit "boolean") (Lit "string"))))))
             (Cat (Opt (Cat (Lit ":-") (Group "fallback" (Star CDot))))
                (Cat (Lit "}") EndText))))).

(** The [switch format] of that file, on the text [value]. *)
Definition coerce_v1 (format value : string) : expanded + error :=
  if format =? "" then inl (EString value)
  else if format =? "string" then inl (EString value)
  else if format =? "number" then
    match Strconv.Atoi value with
    | Some formatted => inl (EInt formatted)
    | None => inr (value ++ " is not a valid number")
    end
  else if format =? "boolean" then
    if value =? "0" then inl (EBool false)
    else if value =? "1" then inl (EBool true)
    else if value =? "false" then inl (EBool false)
    else if value =? "true" then inl (EBool true)
    else if value =? "no" then inl (EBool false)
    else if value =? "yes" then inl (EBool true)
    else inr (value ++ " is not a valid boolean")
  else inr ("format " ++ format ++ " is not supported").

(** [expandEnvValue] of that file, given [os.LookupEnv] of the process. *)
Definition expandEnvValue_v1 (LookupEnv : string -> option string) (str : string)
  : expanded + error :=
  match FindStringSubmatch valueRegex_v1 str with
  | None => inr ("could not parse " ++ str)
  | Some p =>
      match LookupEnv (capture "name" p) with
      | None =>
          if capture "fallback" p =? ""
          then inr ("environment variable " ++ capture "name" p ++ " is missing")
          else coerce_v1 (capture "format" p) (capture "fallback" p)
      | Some value => coerce_v1 (capture "format" p) value
      end
  end.

(** *** Vocabulary of the further properties *)

(** The text ["${"] occurs in [s]. *)
Fixpoint hasOpening (s : string) : bool :=
  match s with
  | "" => false
  | String a rest => (Ascii.eqb a "$" && startsWith "{" rest) || hasOpening rest
  end.

(** Two lookup functions give the same answers up to the text of their
    errors: for every key both return an error, or both return none and the
    same value. *)
Definition sameAnswers (values1 values2 : VariableLookup) : Prop :=
  forall key,
    match snd (values1 key), snd (values2 key) with
    | None, None => fst (values1 key) = fst (values2 key)
    | Some _, Some _ => True
    | _, _ => False
    end.

(** The value of [key] in [os.Environ()]: that of the last entry for it. *)
Fixpoint environValue (entries : list string) (key : string) : option string :=
  match entries with
  | [] => None
  | entry :: rest =>
      match environValue rest key with
      | Some v => Some v
      | None =>
          match cut "=" entry with
          | Some (k, v) => if k =? key then Some v else None
          | None => None
          end
      end
  end.

(** Two lists of groups give the same texts for [name], [format] and
    [fallback]. *)
Definition sameGroups (c1 c2 : captures) : Prop :=
  capture "name" c1 = capture "name" c2
  /\ capture "format" c1 = capture "format" c2
  /\ capture "fallback" c1 = capture "fallback" c2.

(** Two matches end at the same place with the same texts for these
    groups, or both fail. *)
Definition sameMatch (m1 m2 : option (nat * captures)) : Prop :=
  match m1, m2 with
  | Some (e1, c1), Some (e2, c2) => e1 = e2 /\ sameGroups c1 c2
  | None, None => True
  | _, _ => False
  end.

Definition sameCont (k1 k2 : cont) : Prop :=
  forall pos s c1 c2, sameGroups c1 c2 -> sameMatch (k1 pos s c1) (k2 pos s c2).

(** Two patterns match alike in front of continuations that do. *)
Definition sameRegex (r1 r2 : regex) : Prop :=
  forall k1 k2, sameCont k1 k2 -> sameCont (run r1 k1) (run r2 k2).

(** [os.LookupEnv] as a lookup function, as [ExpandEnv] wraps it. *)
Definition envLookup (LookupEnv : string -> option string) : VariableLookup :=
  fun key =>
    match LookupEnv key with
    | None => (None, Some ("environment variable " ++ key ++ " is missing"))
    | Some value => (Some value, None)
    end.

(** ** Properties *)

(** *** Strings *)

Lemma append_assoc (a b c : string) : (a ++ b) ++ c = a ++ (b ++ c).
Proof. induction a as [|x a IH]; simpl; [reflexivity | now rewrite IH]. Qed.

Lemma append_nil_r (a : string) : a ++ "" = a.
Proof. induction a as [|x a IH]; simpl; [reflexivity | now rewrite IH]. Qed.

Lemma length_append (a b : string) :
  String.length (a ++ b) = String.length a + String.length b.
Proof. induction a as [|x a IH]; simpl; [reflexivity | now rewrite IH]. Qed.

Lemma take_app (a b : string) : take (String.length a) (a ++ b) = a.
Proof. induction a as [|x a IH]; simpl; [now destruct b | now rewrite IH]. Qed.

Lemma take_app_sub (a b : string) (pos : nat) :
  take (pos + String.length a - pos) (a ++ b) = a.
Proof. rewrite Nat.add_comm, Nat.add_sub. apply take_app. Qed.

Lemma allBytes_app (p : ascii -> bool) (a b : string) :
  allBytes p (a ++ b) = allBytes p a && allBytes p b.
Proof.
  induction a as [|x a IH]; simpl; [reflexivity|].
  rewrite IH. now rewrite andb_assoc.
Qed.

(** *** The matcher *)

Lemma run_Cat (r1 r2 : regex) (k : cont) :
  run (Cat r1 r2) k = run r1 (run r2 k).
Proof. reflexivity. Qed.

Lemma lit_app (l : string) (k : cont) (pos : nat) (s : string) (c : captures) :
  lit l k pos (l ++ s) c = k (pos + String.length l) s c.
Proof.
  revert pos. induction l as [|x l IH]; intros pos; simpl.
  - now rewrite Nat.add_0_r.
  - rewrite Ascii.eqb_refl, IH. f_equal. lia.
Qed.

(** A greedy repetition that can run over [a] and match from there on
    matches. *)
Lemma star_prefix (cl : cclass) (k : cont) (a b : string) (c : captures) :
  allBytes (cmatch cl) a = true ->
  forall pos m,
    star cl k (pos + String.length a) b c = Some m ->
    star cl k pos (a ++ b) c = Some m.
Proof.
  induction a as [|x a IH]; simpl; intros Ha pos m Hm.
  - now rewrite Nat.add_0_r in Hm.
  - apply andb_prop in Ha as [Hx Ha]. rewrite Hx.
    rewrite (IH Ha (S pos) m); [reflexivity|].
    rewrite <- Hm. f_equal. lia.
Qed.

(** A repetition stops at a byte outside its class. *)
Lemma star_stop (cl : cclass) (k : cont) (x : ascii) (s : string) (pos : nat)
    (c : captures) :
  cmatch cl x = false -> star cl k pos (String x s) c = k pos (String x s) c.
Proof. intros Hx. simpl. now rewrite Hx. Qed.

(** A repetition over [a] fails when its continuation fails at every place
    it can stop. *)
Lemma star_fail (cl : cclass) (k : cont) (a b : string) (c : captures) :
  forall pos,
    star cl k (pos + String.length a) b c = None ->
    (forall n, n < String.length a ->
               k (pos + n) (drop n a ++ b) c = None) ->
    star cl k pos (a ++ b) c = None.
Proof.
  induction a as [|x a IH]; simpl; intros pos Hb Hk.
  - now rewrite Nat.add_0_r in Hb.
  - assert (Hrec : star cl k (S pos) (a ++ b) c = None).
    { apply IH.
      - rewrite <- Hb. f_equal. lia.
      - intros n Hn. specialize (Hk (S n) ltac:(lia)). simpl in Hk.
        rewrite <- Hk. f_equal. lia. }
    rewrite Hrec. specialize (Hk 0 ltac:(lia)). simpl in Hk.
    rewrite Nat.add_0_r in Hk. rewrite Hk. now destruct (cmatch cl x).
Qed.

(** A repetition that matches has run over some bytes of its class and
    gone on from there. *)
Lemma star_inv (cl : cclass) (k : cont) (s : string) (c : captures) :
  forall pos m,
    star cl k pos s c = Some m ->
    exists a b, s = a ++ b /\ allBytes (cmatch cl) a = true
                /\ k (pos + String.length a) b c = Some m.
Proof.
  induction s as [|x s IH]; intros pos m Hm.
  - exists "", "". cbn in *. now rewrite Nat.add_0_r.
  - cbn [star] in Hm. destruct (cmatch cl x) eqn:Hx.
    + destruct (star cl k (S pos) s c) as [m'|] eqn:Hs.
      * destruct (IH _ _ Hs) as (a & b & -> & Ha & Hk).
        exists (String x a), b. cbn. rewrite Hx, Ha. repeat split.
        rewrite <- Hm, <- Hk. f_equal. lia.
      * exists "", (String x s). cbn. now rewrite Nat.add_0_r.
    + exists "", (String x s). cbn. now rewrite Nat.add_0_r.
Qed.

(** A pattern anchored at the beginning of the text matches nowhere else. *)
Lemma matchAt_anchored (r : regex) (pos : nat) (s : string) :
  pos <> 0 -> matchAt (Cat BeginText r) pos s = None.
Proof.
  intros Hpos. unfold matchAt. simpl.
  destruct (Nat.eqb_spec pos 0); [contradiction | reflexivity].
Qed.

Lemma search_anchored (r : regex) (s : string) (pos : nat) :
  pos <> 0 -> search (Cat BeginText r) pos s = None.
Proof.
  revert pos. induction s as [|x s IH]; intros pos Hpos; simpl;
    rewrite (matchAt_anchored r _ _ Hpos); [reflexivity|].
  apply IH. lia.
Qed.

(** [FindStringSubmatch] with an anchored pattern looks at position 0 only. *)
Lemma find_anchored (r : regex) (s : string) :
  FindStringSubmatch (Cat BeginText r) s =
  match matchAt (Cat BeginText r) 0 s with
  | Some (_, c) => Some c
  | None => None
  end.
Proof.
  unfold FindStringSubmatch.
  destruct s as [|x s]; simpl.
  - now destruct (matchAt _ 0 "") as [[e c]|].
  - destruct (matchAt _ 0 (String x s)) as [[e c]|]; [reflexivity|].
    now rewrite search_anchored.
Qed.

(** *** The pattern of the whole-string path *)

Lemma single_matchAt (body : string) :
  body <> "" -> without "}" body = true ->
  matchAt singleRegex 0 ("${" ++ body ++ "}") = Some (3 + String.length body, []).
Proof.
  intros Hne Hb.
  destruct body as [|x body]; [congruence|].
  unfold without in Hb. simpl in Hb. apply andb_prop in Hb as [Hx Hb].
  unfold matchAt. simpl. simpl in Hx. rewrite Hx.
  apply star_prefix; [exact Hb|].
  reflexivity.
Qed.

Lemma single_matches (body : string) :
  body <> "" -> without "}" body = true ->
  FindStringSubmatch singleRegex ("${" ++ body ++ "}") = Some [].
Proof.
  intros Hne Hb. unfold singleRegex. rewrite find_anchored.
  fold singleRegex. now rewrite single_matchAt.
Qed.

(** *** The pattern of [expandValue] *)

Ltac count_S a b :=
  match a with
  | b => constr:(0)
  | S ?a' => let n := count_S a' b in constr:(S n)
  end.

(** Rewrites [S (... (S p)) - p] to the number of successors. *)
Ltac norm_sub :=
  repeat match goal with
         | |- context [?a - ?b] =>
             let n := count_S a b in replace (a - b) with n by lia
         end.

Lemma fallback_tail_none (k : cont) (pos : nat) (c : captures) :
  run (Cat (Opt fallbackGroup) (Cat (Lit "}") EndText)) k pos "}" c
  = k (S pos) "" c.
Proof. reflexivity. Qed.

Lemma fallback_tail_some (k : cont) (pos : nat) (c : captures) (f : string) :
  without newline f = true ->
  forall m,
    k (3 + String.length f + pos) ""
      (("hasFallback", ":-" ++ f) :: ("fallback", f) :: c) = Some m ->
    run (Cat (Opt fallbackGroup) (Cat (Lit "}") EndText)) k pos (":-" ++ f ++ "}") c
    = Some m.
Proof.
  intros Hf m Hm. cbn [run fallbackGroup]. cbn [lit append Ascii.eqb Bool.eqb].
  erewrite star_prefix; [reflexivity | exact Hf |].
  cbn -[Nat.sub Nat.add take].
  rewrite take_app_sub.
  replace (S (S pos) + String.length f - pos) with (S (S (String.length f))) by lia.
  cbn [take]. rewrite take_app.
  rewrite <- Hm. do 2 f_equal. lia.
Qed.

Lemma format_skip_close (k : cont) (pos : nat) (s : string) (c : captures) :
  run (Opt formatGroup) k pos (String "}" s) c = k pos (String "}" s) c.
Proof. reflexivity. Qed.

Lemma format_skip_fallback (k : cont) (pos : nat) (s : string) (c : captures) :
  run (Opt formatGroup) k pos (":-" ++ s) c = k pos (":-" ++ s) c.
Proof. reflexivity. Qed.

Lemma format_take (k : cont) (pos : nat) (s : string) (c : captures) (fmt : string) :
  isFormat fmt = true ->
  forall m,
    k (S (String.length fmt) + pos) s
      (("hasFormat", ":" ++ fmt) :: ("format", fmt) :: c) = Some m ->
    run (Opt formatGroup) k pos (":" ++ fmt ++ s) c = Some m.
Proof.
  intros Hfmt m Hm. unfold isFormat in Hfmt.
  apply orb_prop in Hfmt as [Hfmt | Hfmt]; [apply orb_prop in Hfmt as [Hfmt | Hfmt]|];
    apply String.eqb_eq in Hfmt; subst fmt;
    cbn -[Nat.sub take]; cbn -[Nat.sub take] in Hm; norm_sub;
    cbn [take]; now rewrite Hm.
Qed.

(** The pattern of [expandValue] takes a placeholder text apart into the
    parts it was put together from. *)
Lemma valueTail_token (k : cont) (pos : nat) (c : captures)
    (fmt : string) (fb : option string) :
  (fmt = "" \/ isFormat fmt = true) ->
  match fb with Some f => without newline f = true | None => True end ->
  exists e c',
    (forall m, k e "" (c' ++ c)%list = Some m ->
       run valueTail k pos
         ((if fmt =? "" then "" else ":" ++ fmt)
          ++ match fb with Some f => ":-" ++ f | None => "" end ++ "}") c = Some m)
    /\ capture "format" (c' ++ c)%list = (if fmt =? "" then capture "format" c else fmt)
    /\ capture "hasFallback" (c' ++ c)%list
       = match fb with Some f => ":-" ++ f | None => capture "hasFallback" c end
    /\ capture "fallback" (c' ++ c)%list
       = match fb with Some f => f | None => capture "fallback" c end
    /\ capture "name" (c' ++ c)%list = capture "name" c.
Proof.
  intros Hfmt Hfb.
  destruct Hfmt as [-> | Hfmt].
  - destruct fb as [f|]; cbn [String.eqb append].
    + exists (3 + String.length f + pos),
        [("hasFallback", ":-" ++ f); ("fallback", f)].
      split; [|now cbn].
      intros m Hm. unfold valueTail. rewrite run_Cat.
      change (String ":" (String "-" (f ++ "}"))) with (":-" ++ f ++ "}").
      rewrite format_skip_fallback.
      now apply (fallback_tail_some k pos c f Hfb m).
    + exists (S pos), []. split; [|now cbn].
      intros m Hm. unfold valueTail. rewrite run_Cat. rewrite format_skip_close.
      now rewrite (fallback_tail_none k pos c).
  - assert (Hne : (fmt =? "") = false).
    { destruct fmt; [discriminate Hfmt | reflexivity]. }
    rewrite Hne.
    destruct fb as [f|].
    + exists (3 + String.length f + (S (String.length fmt) + pos)),
        [("hasFallback", ":-" ++ f); ("fallback", f);
         ("hasFormat", ":" ++ fmt); ("format", fmt)].
      split; [|now cbn].
      intros m Hm. unfold valueTail. rewrite run_Cat.
      rewrite append_assoc.
      apply (format_take _ pos _ c fmt Hfmt m).
      now apply fallback_tail_some.
    + exists (S (S (String.length fmt) + pos)),
        [("hasFormat", ":" ++ fmt); ("format", fmt)].
      split; [|now cbn].
      intros m Hm. unfold valueTail. rewrite run_Cat.
      rewrite append_assoc.
      apply (format_take _ pos _ c fmt Hfmt m).
      cbn [append]. now rewrite (fallback_tail_none k _ _).
Qed.

Lemma matchAt_value (s : string) :
  matchAt valueRegex 0 ("${" ++ s)
  = run (Group "name" (Plus (CExcept ":"))) (run valueTail accept) 2 s [].
Proof. reflexivity. Qed.

Lemma valueTail_empty (pos : nat) (c : captures) :
  run valueTail accept pos "" c = None.
Proof. reflexivity. Qed.

Lemma parseValue_token (nm fmt : string) (fb : option string) :
  nm <> "" -> without ":" nm = true ->
  (fmt = "" \/ isFormat fmt = true) ->
  match fb with Some f => without newline f = true | None => True end ->
  parseValue (token nm fmt fb)
  = Some {| name := nm; format := fmt;
            hasFallback := match fb with Some _ => true | None => false end;
            fallback := match fb with Some f => f | None => "" end |}.
Proof.
  intros Hne Hnm Hfmt Hfb.
  destruct nm as [|x nm]; [congruence|].
  unfold without in Hnm. cbn [allBytes] in Hnm. apply andb_prop in Hnm as [Hx Hnm].
  destruct (valueTail_token accept (3 + String.length nm) [("name", String x nm)]
              fmt fb Hfmt Hfb)
    as (e & c' & Hrun & Hformat & HhasFallback & Hfallback & Hname).
  specialize (Hrun _ eq_refl).
  assert (Hm : matchAt valueRegex 0 (token (String x nm) fmt fb)
               = Some (e, (c' ++ [("name", String x nm)])%list)).
  { unfold token. rewrite matchAt_value.
    set (R := (if fmt =? "" then "" else ":" ++ fmt)
              ++ match fb with Some f => ":-" ++ f | None => "" end ++ "}") in *.
    cbn [append run plus]. rewrite Hx.
    apply star_prefix; [exact Hnm|].
    assert (HR : R = "}" \/ exists R', R = String ":" R').
    { unfold R. destruct Hfmt as [-> | Hfmt].
      - destruct fb; cbn; eauto.
      - destruct fmt; [discriminate Hfmt|]. cbn. eauto. }
    destruct HR as [HR | [R' HR]]; rewrite HR in *.
    - cbn [star cmatch Ascii.eqb Bool.eqb negb]. rewrite valueTail_empty.
      cbn [Nat.add Nat.sub take]. rewrite take_app. exact Hrun.
    - rewrite star_stop by reflexivity.
      cbn [Nat.add Nat.sub take]. rewrite take_app. exact Hrun. }
  unfold parseValue, valueRegex. rewrite find_anchored. fold valueRegex.
  rewrite Hm. cbv beta iota. rewrite Hformat, HhasFallback, Hfallback, Hname.
  destruct Hfmt as [-> | Hfmt].
  - destruct fb; reflexivity.
  - destruct fmt; [discriminate Hfmt|]. destruct fb; reflexivity.
Qed.

(** *** Placeholder texts *)

Lemma without_app (x : ascii) (a b : string) :
  without x (a ++ b) = without x a && without x b.
Proof. apply allBytes_app. Qed.

Lemma token_body (nm fmt : string) (fb : option string) :
  token nm fmt fb
  = "${" ++ (nm ++ (if fmt =? "" then "" else ":" ++ fmt)
                ++ match fb with Some f => ":-" ++ f | None => "" end) ++ "}".
Proof. unfold token. now rewrite !append_assoc. Qed.

Lemma single_token (nm fmt : string) (fb : option string) :
  validName nm = true -> (fmt = "" \/ isFormat fmt = true) ->
  validFallback fb = true ->
  FindStringSubmatch singleRegex (token nm fmt fb) = Some [].
Proof.
  intros Hnm Hfmt Hfb. rewrite token_body.
  unfold validName in Hnm.
  apply andb_prop in Hnm as [Hnm Hbrace]. apply andb_prop in Hnm as [Hne _].
  apply single_matches.
  - destruct nm; [discriminate Hne | discriminate].
  - rewrite !without_app, Hbrace. cbn [andb].
    assert (Hf : without "}" (if fmt =? "" then "" else ":" ++ fmt) = true).
    { destruct Hfmt as [-> | Hfmt]; [reflexivity|].
      unfold isFormat in Hfmt.
      apply orb_prop in Hfmt as [Hfmt | Hfmt];
        [apply orb_prop in Hfmt as [Hfmt | Hfmt]|];
        apply String.eqb_eq in Hfmt; subst fmt; reflexivity. }
    rewrite Hf. cbn [andb].
    destruct fb as [f|]; [|reflexivity].
    unfold validFallback in Hfb. apply andb_prop in Hfb as [Hfb _].
    change (":-" ++ f) with (String ":" (String "-" f)).
    unfold without in *. cbn. exact Hfb.
Qed.

(** What [expandValue] does with a placeholder text, by the answer of the
    lookup. *)
Lemma expandValue_token (values : VariableLookup) (nm fmt : string)
    (fb : option string) :
  validName nm = true -> (fmt = "" \/ isFormat fmt = true) ->
  validFallback fb = true ->
  expandValue (token nm fmt fb) values
  = match snd (values nm) with
    | Some e =>
        match fb with
        | None => inr e
        | Some f => coerce fmt f
        end
    | None =>
        match fst (values nm) with
        | None => inl (EString (token nm fmt fb))
        | Some v => coerce fmt v
        end
    end.
Proof.
  intros Hnm Hfmt Hfb. unfold expandValue.
  unfold validName in Hnm.
  apply andb_prop in Hnm as [Hnm _]. apply andb_prop in Hnm as [Hne Hcolon].
  rewrite parseValue_token; try assumption.
  - cbn [name format hasFallback fallback].
    destruct (values nm) as [[v|] [e|]]; destruct fb; reflexivity.
  - destruct nm; [discriminate Hne | discriminate].
  - destruct fb as [f|]; [|exact I].
    unfold validFallback in Hfb. now apply andb_prop in Hfb as [_ Hfb].
Qed.

Lemma expandValue_resolved (values : VariableLookup) (nm fmt : string)
    (fb : option string) (t : string) :
  validName nm = true -> (fmt = "" \/ isFormat fmt = true) ->
  validFallback fb = true ->
  resolvesTo values nm fb t ->
  expandValue (token nm fmt fb) values = coerce fmt t.
Proof.
  intros Hnm Hfmt Hfb Ht. rewrite expandValue_token by assumption.
  destruct Ht as [Hv | (v & e & Hv & ->)]; now rewrite Hv.
Qed.

(** A fallback text with a line break in it is outside the pattern of
    [expandValue]. *)
Lemma fallback_line_break (values : VariableLookup) :
  expandValue ("${X:-a" ++ String newline "b}") values
  = inr (couldNotParse ("${X:-a" ++ String newline "b}")).
Proof. reflexivity. Qed.

(** *** [Expand] and the error it returns *)

Lemma Expand_recursion (input : value) (values : VariableLookup) :
  Expand input values
  = (fst (recursion values input), combined (snd (recursion values input))).
Proof.
  unfold Expand. destruct (recursion values input) as [output errs].
  now destruct errs.
Qed.

(** The whole-string path. *)
Lemma Expand_single (values : VariableLookup) (s : string) :
  FindStringSubmatch singleRegex s <> None ->
  Expand (VString s) values
  = match expandValue s values with
    | inl v => (toValue v, None)
    | inr err => (VString s, Some (Errorf0 err))
    end.
Proof.
  intros Hs. rewrite Expand_recursion. cbn [recursion]. unfold expandString.
  destruct (FindStringSubmatch singleRegex s); [|congruence].
  now destruct (expandValue s values).
Qed.

Lemma Expand_token (values : VariableLookup) (nm fmt : string)
    (fb : option string) :
  validName nm = true -> (fmt = "" \/ isFormat fmt = true) ->
  validFallback fb = true ->
  Expand (VString (token nm fmt fb)) values
  = match expandValue (token nm fmt fb) values with
    | inl v => (toValue v, None)
    | inr err => (VString (token nm fmt fb), Some (Errorf0 err))
    end.
Proof.
  intros Hnm Hfmt Hfb. apply Expand_single.
  now rewrite single_token.
Qed.

(** *** A format string without a percent sign is printed as it is *)

Lemma doPrintf_plain (s : string) :
  without "%" s = true ->
  forall fuel, String.length s <= fuel -> Fmt.doPrintf fuel s = s.
Proof.
  induction s as [|x s IH]; intros Hs fuel Hfuel.
  - now destruct fuel.
  - destruct fuel as [|fuel]; [simpl in Hfuel; lia|].
    unfold without in Hs. cbn [allBytes] in Hs. apply andb_prop in Hs as [Hx Hs].
    cbn [Fmt.doPrintf]. cbn [cmatch] in Hx.
    destruct (Ascii.eqb x "%"); [discriminate Hx|].
    rewrite IH; [reflexivity | exact Hs | simpl in Hfuel; lia].
Qed.

Lemma Errorf0_plain (s : string) : without "%" s = true -> Errorf0 s = s.
Proof. intros Hs. unfold Errorf0, Fmt.Sprintf0. now apply doPrintf_plain. Qed.

(** A dot that ends the format is the verb; a dot with a byte behind it
    opens a precision, and a format that ends there has no verb. *)
Lemma Errorf0_dot :
  Errorf0 "disk is at 95%." = "disk is at 95%!.(MISSING)"
  /\ Errorf0 "at 95%.2" = "at 95%!(NOVERB)"
  /\ Errorf0 "at 95%.x" = "at 95%!x(MISSING)".
Proof. repeat split. Qed.

(** *** The fuel of [doPrintf] is enough *)

Lemma length_drop (n : nat) (s : string) :
  String.length (drop n s) <= String.length s.
Proof.
  revert s. induction n as [|n IH]; intros s; [now destruct s|].
  destruct s as [|x s]; cbn; [lia|]. specialize (IH s). lia.
Qed.

Lemma length_after (c : ascii) (s s' : string) :
  Fmt.after c s = Some s' -> String.length s' < String.length s.
Proof.
  destruct s as [|x s]; cbn; [discriminate|].
  destruct (Ascii.eqb x c); [|discriminate].
  intros [= <-]. lia.
Qed.

Lemma length_skipFlags (s : string) :
  String.length (Fmt.skipFlags s) <= String.length s.
Proof.
  induction s as [|x s IH]; cbn [Fmt.skipFlags]; [reflexivity|].
  destruct (Fmt.isFlag x); cbn [String.length]; lia.
Qed.

Lemma length_parsenum (s : string) :
  forall num isnum,
    String.length (snd (Fmt.parsenum num isnum s)) <= String.length s.
Proof.
  induction s as [|x s IH]; intros num isnum; cbn [Fmt.parsenum]; [reflexivity|].
  destruct (Strconv.isDigit x); [|reflexivity].
  destruct (Fmt.tooLarge num); cbn [snd String.length]; [lia|].
  specialize (IH (num * 10 + Strconv.digitVal x)%Z true). lia.
Qed.

Lemma length_argNumber (s : string) :
  String.length (fst (fst (Fmt.argNumber s))) <= String.length s.
Proof.
  unfold Fmt.argNumber. destruct (Fmt.after "[" s); [|reflexivity].
  destruct (Fmt.parseArgNumber s) as [wid ok]. apply length_drop.
Qed.

Lemma length_width (afterIndex : bool) (s : string) :
  String.length (snd (fst (fst (Fmt.width afterIndex s)))) <= String.length s.
Proof.
  unfold Fmt.width. destruct (Fmt.after "*" s) as [s'|] eqn:Hs.
  - apply length_after in Hs. cbn. lia.
  - pose proof (length_parsenum s 0 false) as Hp.
    now destruct (Fmt.parsenum 0 false s).
Qed.

Lemma length_precision (afterIndex : bool) (s : string) :
  String.length (snd (fst (fst (Fmt.precision afterIndex s)))) <= String.length s.
Proof.
  unfold Fmt.precision. destruct (Fmt.after "." s) as [s'|] eqn:Hs; [|reflexivity].
  destruct s' as [|b s']; [reflexivity|].
  apply length_after in Hs.
  pose proof (length_argNumber (String b s')) as Ha.
  destruct (Fmt.argNumber (String b s')) as [[s2 found] bad]. cbn [fst] in Ha.
  destruct (Fmt.after "*" s2) as [s3|] eqn:Hs2.
  - apply length_after in Hs2. cbn. lia.
  - pose proof (length_parsenum s2 0 false) as Hp.
    destruct (Fmt.parsenum 0 false s2). cbn in *. lia.
Qed.

Lemma length_decodeVerb (s : string) :
  String.length (snd (Fmt.decodeVerb s)) <= String.length s.
Proof.
  unfold Fmt.decodeVerb. destruct s as [|b0 t]; [reflexivity|].
  repeat match goal with
         | |- context [if ?b then _ else _] => destruct b
         | |- context [match ?n with O => _ | S _ => _ end] => destruct n
         | |- context [match ?u with "" => _ | String _ _ => _ end] => destruct u
         | _ => cbn [snd fst]; apply length_drop
         end.
Qed.

Lemma length_verb (goodArgNum : bool) (s : string) :
  String.length (snd (Fmt.verb goodArgNum s)) <= String.length s.
Proof.
  unfold Fmt.verb. destruct s as [|x s]; [reflexivity|].
  pose proof (length_decodeVerb (String x s)) as Hd.
  now destruct (Fmt.decodeVerb (String x s)).
Qed.

Lemma length_directive (s : string) :
  String.length (snd (Fmt.directive s)) <= String.length s.
Proof.
  unfold Fmt.directive.
  pose proof (length_skipFlags s) as H1.
  pose proof (length_argNumber (Fmt.skipFlags s)) as H2.
  destruct (Fmt.argNumber (Fmt.skipFlags s)) as [[s2 afterIndex] bad1].
  pose proof (length_width afterIndex s2) as H3.
  destruct (Fmt.width afterIndex s2) as [[[outW s3] afterIndex3] bad3].
  pose proof (length_precision afterIndex3 s3) as H4.
  destruct (Fmt.precision afterIndex3 s3) as [[[outP s4] afterIndex4] bad4].
  cbn [fst snd] in *.
  assert (H5 : forall s5 bad5,
    String.length s5 <= String.length s4 ->
    String.length
      (snd (let (out, rest) :=
              Fmt.verb (negb (bad1 || bad3 || bad4 || bad5)) s5 in
            (outW ++ outP ++ out, rest))) <= String.length s).
  { intros s5 bad5 Hs5.
    pose proof (length_verb (negb (bad1 || bad3 || bad4 || bad5)) s5) as Hv.
    destruct (Fmt.verb _ s5). cbn [snd] in *. lia. }
  destruct afterIndex4.
  - now apply H5.
  - pose proof (length_argNumber s4) as Ha.
    destruct (Fmt.argNumber s4) as [[s5 found] bad5]. now apply H5.
Qed.

(** More fuel than the length of the format changes nothing. *)
Lemma doPrintf_fuel (fuel1 : nat) :
  forall fuel2 s,
    String.length s <= fuel1 -> String.length s <= fuel2 ->
    Fmt.doPrintf fuel1 s = Fmt.doPrintf fuel2 s.
Proof.
  induction fuel1 as [|fuel1 IH]; intros fuel2 s H1 H2.
  - destruct s; [now destruct fuel2 | cbn in H1; lia].
  - destruct fuel2 as [|fuel2]; [destruct s; [reflexivity | cbn in H2; lia]|].
    destruct s as [|x s]; [reflexivity|].
    cbn [Fmt.doPrintf String.length] in *.
    destruct (Ascii.eqb x "%").
    + pose proof (length_directive s) as Hd.
      destruct (Fmt.directive s) as [out rest]. cbn [snd] in Hd.
      f_equal. apply IH; lia.
    + f_equal. apply IH; lia.
Qed.

(** *** The pattern of the embedded path *)

(** No match starts at a byte that is no dollar sign, unless it is a
    backslash with a dollar sign behind it. *)
Lemma detect_none (pos : nat) (x : ascii) (s : string) :
  x <> "$"%char -> (x <> "\"%char \/ startsWith "$" s = false) ->
  matchAt detectRegex pos (String x s) = None.
Proof.
  intros Hx Hs. unfold matchAt, detectRegex.
  cbn [run lit]. 
  assert (Hd : Ascii.eqb "$" x = false) by (apply Ascii.eqb_neq; congruence).
  rewrite Hd.
  destruct (Ascii.eqb_spec "\" x) as [<- | Hb]; [|reflexivity].
  destruct Hs as [Hs | Hs]; [congruence|].
  destruct s as [|y s]; [reflexivity|].
  cbn in Hs. rewrite Ascii.eqb_sym in Hs. now rewrite Hs.
Qed.

Lemma detect_plain (pos : nat) (body post : string) :
  body <> "" -> without "}" body = true ->
  matchAt detectRegex pos (("${" ++ body ++ "}") ++ post)
  = Some (pos + String.length ("${" ++ body ++ "}"), []).
Proof.
  intros Hne Hb.
  destruct body as [|x body]; [congruence|].
  unfold without in Hb. cbn [allBytes] in Hb. apply andb_prop in Hb as [Hx Hb].
  unfold matchAt, detectRegex. cbn [append run lit plus Ascii.eqb Bool.eqb].
  rewrite Hx. rewrite append_assoc.
  apply star_prefix; [exact Hb|].
  cbn. unfold accept. do 2 f_equal. rewrite length_append. cbn. lia.
Qed.

Lemma detect_escaped (pos : nat) (body post : string) :
  body <> "" -> without "}" body = true ->
  matchAt detectRegex pos (("\${" ++ body ++ "}") ++ post)
  = Some (pos + String.length ("\${" ++ body ++ "}"), []).
Proof.
  intros Hne Hb.
  destruct body as [|x body]; [congruence|].
  unfold without in Hb. cbn [allBytes] in Hb. apply andb_prop in Hb as [Hx Hb].
  unfold matchAt, detectRegex. cbn [append run lit plus Ascii.eqb Bool.eqb].
  rewrite Hx. rewrite append_assoc.
  erewrite star_prefix; [reflexivity | exact Hb |].
  cbn. unfold accept. do 2 f_equal. rewrite length_append. cbn. lia.
Qed.

(** *** [ReplaceAllStringFunc] *)

Section Replace.

Context {E : Type} (r : regex) (repl : string -> string * list E).

Lemma replace_skip (a s : string) (pos : nat) :
  replaceFrom r repl (String.length a) pos (a ++ s)
  = replaceFrom r repl 0 (pos + String.length a) s.
Proof.
  revert pos. induction a as [|x a IH]; intros pos; cbn [String.length append].
  - now rewrite Nat.add_0_r.
  - cbn [replaceFrom]. rewrite IH. f_equal. lia.
Qed.

(** A match at the head is replaced and the scan goes on behind it. *)
Lemma replace_match (m rest : string) (pos : nat) (c : captures) :
  m <> "" ->
  matchAt r pos (m ++ rest) = Some (pos + String.length m, c) ->
  replaceFrom r repl 0 pos (m ++ rest)
  = (fst (repl m) ++ fst (replaceFrom r repl 0 (pos + String.length m) rest),
     (snd (repl m) ++ snd (replaceFrom r repl 0 (pos + String.length m) rest))%list).
Proof.
  intros Hne Hm. destruct m as [|x m]; [congruence|].
  cbn [append] in *. cbn [replaceFrom]. rewrite Hm.
  rewrite Nat.add_comm, Nat.add_sub.
  change (String x (m ++ rest)) with (String x m ++ rest). rewrite take_app.
  cbn [String.length]. rewrite Nat.sub_1_r. cbn [Nat.pred].
  rewrite replace_skip.
  replace (S pos + String.length m) with (S (String.length m) + pos) by lia.
  destruct (repl (String x m)) as [out errs].
  now destruct (replaceFrom r repl 0 (S (String.length m) + pos) rest).
Qed.

End Replace.

(** Text without a dollar sign is copied, up to a backslash that escapes
    what follows. *)
Lemma replace_literal {E : Type} (repl : string -> string * list E)
    (pre rest : string) :
  without "$" pre = true ->
  (without "\" pre = true \/ startsWith "$" rest = false) ->
  forall pos,
    replaceFrom detectRegex repl 0 pos (pre ++ rest)
    = (pre ++ fst (replaceFrom detectRegex repl 0 (pos + String.length pre) rest),
       snd (replaceFrom detectRegex repl 0 (pos + String.length pre) rest)).
Proof.
  induction pre as [|x pre IH]; intros Hd Hb pos.
  - cbn. rewrite Nat.add_0_r. now destruct (replaceFrom _ _ _ _ _).
  - unfold without in Hd. cbn [allBytes] in Hd. apply andb_prop in Hd as [Hx Hd].
    cbn [append replaceFrom]. rewrite detect_none.
    + rewrite IH; [| exact Hd |].
      * cbn [String.length]. replace (S pos + String.length pre) with (pos + S (String.length pre)) by lia.
        reflexivity.
      * destruct Hb as [Hb | Hb]; [left | now right].
        unfold without in Hb. cbn [allBytes] in Hb. now apply andb_prop in Hb as [_ Hb].
    + cbn in Hx. destruct (Ascii.eqb_spec x "$"); [discriminate Hx | assumption].
    + destruct Hb as [Hb | Hb].
      * left. unfold without in Hb. cbn in Hb. apply andb_prop in Hb as [Hb _].
        destruct (Ascii.eqb_spec x "\"); [discriminate Hb | assumption].
      * right. destruct pre as [|y pre]; [exact Hb|].
        cbn [allBytes] in Hd. apply andb_prop in Hd as [Hy _].
        cbn in Hy. cbn. now destruct (Ascii.eqb y "$").
Qed.

Lemma replace_plain_text {E : Type} (repl : string -> string * list E)
    (s : string) (pos : nat) :
  without "$" s = true ->
  replaceFrom detectRegex repl 0 pos s = (s, []).
Proof.
  intros Hs.
  rewrite <- (append_nil_r s) at 1.
  rewrite replace_literal; [| exact Hs | now right].
  cbn. now rewrite append_nil_r.
Qed.

(** A text that does not start with a dollar sign is no single
    placeholder. *)
Lemma single_none (s : string) :
  startsWith "$" s = false -> FindStringSubmatch singleRegex s = None.
Proof.
  intros Hs. unfold singleRegex. rewrite find_anchored.
  unfold matchAt. cbn [run Nat.eqb lit].
  destruct s as [|x s]; [reflexivity|].
  cbn in Hs. rewrite Ascii.eqb_sym in Hs. now rewrite Hs.
Qed.

(** A match of the pattern of the embedded path is never empty, as
    [replaceFrom] takes for granted. *)
Lemma detect_nonempty (pos : nat) (s : string) (e : nat) (c : captures) :
  matchAt detectRegex pos s = Some (e, c) -> pos < e.
Proof.
  assert (Hplain : forall p t c0,
    run (Cat (Lit "${") (Cat (Plus (CExcept "}")) (Lit "}"))) accept p t c0
    = Some (e, c) -> p < e).
  { intros p t c0. cbn [run lit plus].
    destruct t as [|d t]; [discriminate|].
    destruct (Ascii.eqb "$" d); [|discriminate].
    destruct t as [|b t]; [discriminate|].
    destruct (Ascii.eqb "{" b); [|discriminate].
    destruct t as [|x t]; [discriminate|].
    unfold plus. destruct (cmatch (CExcept "}") x); [|discriminate].
    intros Hs. destruct (star_inv _ _ _ _ _ _ Hs) as (a & u & _ & _ & Hk).
    cbv beta in Hk. destruct u as [|y u]; [discriminate Hk|].
    destruct (Ascii.eqb "}" y); [|discriminate Hk].
    unfold accept in Hk. injection Hk as <- _. lia. }
  unfold matchAt, detectRegex. rewrite run_Cat.
  remember (run (Cat (Lit "${") (Cat (Plus (CExcept "}")) (Lit "}"))) accept)
    as K eqn:HK.
  cbn [run lit].
  destruct s as [|x s].
  - intros H. subst K. now apply Hplain in H.
  - destruct (Ascii.eqb "\" x).
    + destruct (K (S pos) s []) as [m|] eqn:Hm.
      * intros [= ->]. subst K. apply Hplain in Hm. lia.
      * intros H. subst K. now apply Hplain in H.
    + intros H. subst K. now apply Hplain in H.
Qed.

(** *** Placeholder texts the pattern of [expandValue] refuses *)

#[local] Arguments Ascii.eqb : simpl nomatch.

(** Takes the text under a [match] apart byte by byte, as far as the
    pattern looks at it. *)
Ltac scan_text H1 H2 H3 :=
  cbn -[Nat.sub] in *;
  first
    [ reflexivity
    | discriminate H1
    | discriminate H2
    | discriminate H3
    | match goal with
      | |- context [Ascii.eqb ?c ?x] =>
          is_var x; destruct (Ascii.eqb_spec c x); [subst x|]; scan_text H1 H2 H3
      | |- context [match (?s ++ _)%string with _ => _ end] =>
          is_var s; destruct s; scan_text H1 H2 H3
      end ].

(** Behind the colon of a format tag there must be one of the three
    formats, and behind the format the fallback or the closing brace. *)
Lemma valueTail_bad_tag (pos : nat) (c : captures) (after : string) :
  startsWith "-" after = false ->
  isFormat (formatTag after) = false ->
  without "}" after = true ->
  run valueTail accept pos (String ":" (after ++ "}")) c = None.
Proof.
  intros H1 H2 H3.
  unfold valueTail, formatGroup, fallbackGroup, isFormat, without in *.
  scan_text H1 H2 H3.
Qed.

(** In the middle of a name the pattern cannot go on. *)
Lemma valueTail_in_name (pos : nat) (c : captures) (x y : ascii) (s : string) :
  x <> ":"%char ->
  run valueTail accept pos (String x (String y s)) c = None.
Proof.
  intros Hx. unfold valueTail, formatGroup, fallbackGroup.
  cbn -[Nat.sub].
  destruct (Ascii.eqb_spec ":" x); [congruence|].
  now destruct (Ascii.eqb "}" x).
Qed.

Lemma drop_app_lt (a b : string) (n : nat) :
  n < String.length a ->
  exists x rest, drop n a = String x rest /\ drop n a ++ b = String x (rest ++ b)
                 /\ (forall p, allBytes p a = true -> p x = true).
Proof.
  revert n. induction a as [|y a IH]; intros n Hn; [simpl in Hn; lia|].
  destruct n as [|n].
  - exists y, a. cbn. repeat split. intros p Hp. now apply andb_prop in Hp as [Hy _].
  - destruct (IH n ltac:(simpl in Hn; lia)) as (x & rest & H1 & H2 & H3).
    exists x, rest. cbn [drop]. repeat split; try assumption.
    intros p Hp. apply H3. cbn in Hp. now apply andb_prop in Hp as [_ Hp].
Qed.

Lemma parseValue_bad_tag (nm after : string) :
  without ":" nm = true ->
  startsWith "-" after = false ->
  isFormat (formatTag after) = false ->
  without "}" after = true ->
  parseValue ("${" ++ nm ++ ":" ++ after ++ "}") = None.
Proof.
  intros Hnm H1 H2 H3.
  unfold parseValue, valueRegex. rewrite find_anchored. fold valueRegex.
  rewrite matchAt_value.
  destruct nm as [|x nm].
  - reflexivity.
  - unfold without in Hnm. cbn [allBytes] in Hnm. apply andb_prop in Hnm as [Hx Hnm].
    cbn [append run plus]. rewrite Hx.
    rewrite star_fail; [reflexivity | |].
    + rewrite star_stop by reflexivity. now apply valueTail_bad_tag.
    + intros n Hn.
      destruct (drop_app_lt nm (String ":" (after ++ "}")) n Hn)
        as (y & rest & _ & -> & Hy).
      specialize (Hy _ Hnm).
      destruct rest; apply valueTail_in_name;
        intros ->; discriminate Hy.
Qed.

Lemma expandValue_bad_tag (values : VariableLookup) (nm after : string) :
  without ":" nm = true ->
  startsWith "-" after = false ->
  isFormat (formatTag after) = false ->
  without "}" after = true ->
  expandValue ("${" ++ nm ++ ":" ++ after ++ "}") values
  = inr (couldNotParse ("${" ++ nm ++ ":" ++ after ++ "}")).
Proof.
  intros Hnm H1 H2 H3. unfold expandValue.
  now rewrite parseValue_bad_tag.
Qed.

(** *** The format a match gives is one of the three, or none

    So the [default] case of the [switch] in [expandValue] is never
    taken. *)

Lemma lit_inv (l : string) (k : cont) (s : string) (c : captures) :
  forall pos m,
    lit l k pos s c = Some m ->
    exists s', s = l ++ s' /\ k (pos + String.length l) s' c = Some m.
Proof.
  revert s. induction l as [|x l IH]; intros s pos m Hm.
  - exists s. cbn in *. now rewrite Nat.add_0_r.
  - cbn [lit] in Hm. destruct s as [|y s]; [discriminate|].
    destruct (Ascii.eqb_spec x y) as [<- | ?]; [|discriminate].
    destruct (IH _ _ _ Hm) as (s' & -> & Hk).
    exists s'. split; [reflexivity|].
    rewrite <- Hk. cbn. f_equal. lia.
Qed.

Lemma closing_captures (pos : nat) (s : string) (c : captures)
    (e : nat) (caps : captures) :
  run (Cat (Lit "}") EndText) accept pos s c = Some (e, caps) -> caps = c.
Proof.
  cbn [run lit]. destruct s as [|x s]; [discriminate|].
  destruct (Ascii.eqb "}" x); [|discriminate].
  destruct s; [|discriminate]. unfold accept. now intros [= _ <-].
Qed.

Lemma fallback_tail_format (pos : nat) (s : string) (c : captures)
    (e : nat) (caps : captures) :
  run (Cat (Opt fallbackGroup) (Cat (Lit "}") EndText)) accept pos s c
  = Some (e, caps) ->
  capture "format" caps = capture "format" c.
Proof.
  rewrite run_Cat.
  remember (run (Cat (Lit "}") EndText) accept) as K eqn:HK.
  cbn [run]. destruct (run fallbackGroup K pos s c) as [m|] eqn:Hf.
  - intros [= ->]. unfold fallbackGroup in Hf. cbn [run] in Hf.
    apply lit_inv in Hf as (s1 & -> & Hf).
    apply star_inv in Hf as (a & b & -> & _ & Hf).
    subst K. apply closing_captures in Hf. now subst caps.
  - intros H. subst K. apply closing_captures in H. now subst caps.
Qed.

Lemma valueTail_format (pos : nat) (s : string) (c : captures)
    (e : nat) (caps : captures) :
  run valueTail accept pos s c = Some (e, caps) ->
  capture "format" caps = capture "format" c
  \/ isFormat (capture "format" caps) = true.
Proof.
  unfold valueTail. rewrite run_Cat.
  remember (run (Cat (Opt fallbackGroup) (Cat (Lit "}") EndText)) accept)
    as K eqn:HK.
  cbn [run]. destruct (run formatGroup K pos s c) as [m|] eqn:Hf.
  - intros [= ->]. right. unfold formatGroup in Hf. cbn [run] in Hf.
    apply lit_inv in Hf as (s1 & -> & Hf).
    destruct (lit "number" _ _ s1 c) as [m|] eqn:H1;
      [|destruct (lit "boolean" _ _ s1 c) as [m|] eqn:H2].
    + injection Hf as ->. apply lit_inv in H1 as (s2 & -> & H1).
      rewrite take_app_sub in H1. subst K.
      apply fallback_tail_format in H1. now rewrite H1.
    + injection Hf as ->. apply lit_inv in H2 as (s2 & -> & H2).
      rewrite take_app_sub in H2. subst K.
      apply fallback_tail_format in H2. now rewrite H2.
    + apply lit_inv in Hf as (s2 & -> & Hf).
      rewrite take_app_sub in Hf. subst K.
      apply fallback_tail_format in Hf. now rewrite Hf.
  - intros H. left. subst K. now apply fallback_tail_format in H.
Qed.

Lemma parseValue_format (str : string) (p : placeholder) :
  parseValue str = Some p -> format p = "" \/ isFormat (format p) = true.
Proof.
  unfold parseValue, valueRegex. rewrite find_anchored. fold valueRegex.
  destruct (matchAt valueRegex 0 str) as [[e caps]|] eqn:Hm; [|discriminate].
  intros [= <-]. cbn [format].
  unfold matchAt, valueRegex in Hm. rewrite run_Cat in Hm.
  remember (run (Cat (Lit "${") (Cat (Group "name" (Plus (CExcept ":"))) valueTail))
              accept) as K eqn:HK.
  cbn [run Nat.eqb] in Hm. subst K. rewrite run_Cat in Hm.
  remember (run (Cat (Group "name" (Plus (CExcept ":"))) valueTail) accept)
    as K eqn:HK.
  cbn [run] in Hm. apply lit_inv in Hm as (s1 & -> & Hm).
  subst K. rewrite run_Cat in Hm.
  remember (run valueTail accept) as K eqn:HK.
  cbn [run] in Hm. unfold plus in Hm.
  destruct s1 as [|x s1]; [discriminate|].
  destruct (cmatch (CExcept ":") x); [|discriminate].
  apply star_inv in Hm as (a & b & _ & _ & Hm).
  subst K. apply valueTail_format in Hm. exact Hm.
Qed.

(** *** One placeholder inside a text *)

Lemma single_followed (body post : string) :
  body <> "" -> without "}" body = true -> post <> "" ->
  FindStringSubmatch singleRegex (("${" ++ body ++ "}") ++ post) = None.
Proof.
  intros Hne Hb Hpost. unfold singleRegex. rewrite find_anchored.
  destruct body as [|x body]; [congruence|].
  unfold without in Hb. cbn [allBytes] in Hb. apply andb_prop in Hb as [Hx Hb].
  unfold matchAt. cbn [append run Nat.eqb lit Ascii.eqb Bool.eqb plus].
  rewrite Hx, append_assoc.
  rewrite star_fail; [reflexivity | |].
  - cbn. now destruct post.
  - intros n Hn.
    destruct (drop_app_lt body ("}" ++ post) n Hn) as (y & rest & _ & -> & Hy).
    specialize (Hy _ Hb). cbn in Hy. cbn.
    rewrite Ascii.eqb_sym. now destruct (Ascii.eqb y "}").
Qed.

Lemma startsWith_app (x : ascii) (a b : string) :
  a <> "" -> without x a = true -> startsWith x (a ++ b) = false.
Proof.
  intros Hne Ha. destruct a as [|y a]; [congruence|].
  unfold without in Ha. cbn in Ha. apply andb_prop in Ha as [Hy _].
  cbn. now destruct (Ascii.eqb y x).
Qed.

Lemma replaceMatch_placeholder (values : VariableLookup) (s : string) :
  replaceMatch values ("${" ++ s)
  = match expandValue ("${" ++ s) values with
    | inr err => ("${" ++ s, [err])
    | inl expanded => (Sprintv expanded, [])
    end.
Proof. reflexivity. Qed.

Lemma replaceMatch_escaped (values : VariableLookup) (s : string) :
  replaceMatch values ("\" ++ s) = (s, []).
Proof. unfold replaceMatch. cbn. now destruct s. Qed.

(** The embedded path on a text with one placeholder in it. *)
Lemma Expand_embedded (values : VariableLookup) (pre body post : string) :
  body <> "" -> without "}" body = true ->
  without "$" pre = true -> without "\" pre = true -> without "$" post = true ->
  pre <> "" \/ post <> "" ->
  Expand (VString (pre ++ ("${" ++ body ++ "}") ++ post)) values
  = (VString (pre ++ fst (replaceMatch values ("${" ++ body ++ "}")) ++ post),
     combined (snd (replaceMatch values ("${" ++ body ++ "}")))).
Proof.
  intros Hne Hb Hpre Hesc Hpost Hround.
  rewrite Expand_recursion. cbn [recursion]. unfold expandString.
  assert (Hsingle : FindStringSubmatch singleRegex
                      (pre ++ ("${" ++ body ++ "}") ++ post) = None).
  { destruct pre as [|x pre].
    - destruct Hround as [Hround | Hround]; [congruence|].
      now apply single_followed.
    - apply single_none. apply startsWith_app; [discriminate | exact Hpre]. }
  rewrite Hsingle. unfold ReplaceAllStringFunc.
  rewrite replace_literal; [| exact Hpre | now left].
  rewrite (replace_match _ _ _ _ _ []);
    [| now destruct body | now apply detect_plain].
  rewrite replace_plain_text by exact Hpost.
  destruct (replaceMatch values ("${" ++ body ++ "}")) as [out errs].
  cbn [fst snd]. now rewrite app_nil_r.
Qed.

(** An escaped placeholder inside a text. *)
Lemma Expand_escaped (values : VariableLookup) (pre body post : string) :
  body <> "" -> without "}" body = true ->
  without "$" pre = true -> without "$" post = true ->
  Expand (VString (pre ++ ("\${" ++ body ++ "}") ++ post)) values
  = (VString (pre ++ ("${" ++ body ++ "}") ++ post), None).
Proof.
  intros Hne Hb Hpre Hpost.
  rewrite Expand_recursion. cbn [recursion]. unfold expandString.
  assert (Hsingle : FindStringSubmatch singleRegex
                      (pre ++ ("\${" ++ body ++ "}") ++ post) = None).
  { apply single_none. destruct pre as [|x pre]; [reflexivity|].
    apply startsWith_app; [discriminate | exact Hpre]. }
  rewrite Hsingle. unfold ReplaceAllStringFunc.
  rewrite replace_literal; [| exact Hpre | now right].
  rewrite (replace_match _ _ _ _ _ []);
    [| discriminate | now apply detect_escaped].
  rewrite replace_plain_text by exact Hpost.
  change ("\${" ++ body ++ "}") with ("\" ++ "${" ++ body ++ "}").
  now rewrite replaceMatch_escaped.
Qed.

(** A match of the whole-string pattern is one placeholder and nothing
    else. *)
Lemma single_inv (s : string) :
  FindStringSubmatch singleRegex s <> None ->
  exists body, s = "${" ++ body ++ "}" /\ body <> "" /\ without "}" body = true.
Proof.
  unfold singleRegex. rewrite find_anchored. unfold matchAt.
  cbn [run Nat.eqb lit].
  destruct s as [|d s]; [congruence|].
  destruct (Ascii.eqb_spec "$" d) as [<- | ?]; [|congruence].
  destruct s as [|b s]; [congruence|].
  destruct (Ascii.eqb_spec "{" b) as [<- | ?]; [|congruence].
  unfold plus. destruct s as [|x s]; [congruence|].
  destruct (cmatch (CExcept "}") x) eqn:Hx; [|congruence].
  destruct (star _ _ _ _ _) as [m|] eqn:Hs; [|congruence].
  intros _. destruct (star_inv _ _ _ _ _ _ Hs) as (a & t & -> & Ha & Hk).
  exists (String x a). 
  destruct t as [|y t]; [discriminate Hk|]. cbn [lit] in Hk.
  destruct (Ascii.eqb_spec "}" y) as [<- | ?]; [|discriminate Hk].
  destruct t; [|discriminate Hk].
  repeat split; [discriminate|].
  unfold without. cbn [allBytes]. now rewrite Hx, Ha.
Qed.

(** *** A placeholder text alone or inside a text *)

Lemma token_valid_body (nm fmt : string) (fb : option string) :
  validName nm = true -> (fmt = "" \/ isFormat fmt = true) ->
  validFallback fb = true ->
  exists body, token nm fmt fb = "${" ++ body ++ "}"
               /\ body <> "" /\ without "}" body = true.
Proof.
  intros Hnm Hfmt Hfb. apply single_inv. now rewrite single_token.
Qed.

(** A placeholder that expands to a text is replaced by that text. *)
Lemma Expand_in_text_string (values : VariableLookup) (nm fmt : string)
    (fb : option string) (pre post out : string) :
  validName nm = true -> (fmt = "" \/ isFormat fmt = true) ->
  validFallback fb = true ->
  without "$" pre = true -> without "\" pre = true -> without "$" post = true ->
  expandValue (token nm fmt fb) values = inl (EString out) ->
  Expand (VString (pre ++ token nm fmt fb ++ post)) values
  = (VString (pre ++ out ++ post), None).
Proof.
  intros Hnm Hfmt Hfb Hpre Hesc Hpost Hv.
  destruct (token_valid_body nm fmt fb Hnm Hfmt Hfb) as (body & Htok & Hne & Hb).
  destruct pre as [|x pre]; [destruct post as [|y post]|].
  - cbn [append]. rewrite !append_nil_r.
    rewrite Expand_token, Hv by assumption. reflexivity.
  - rewrite Htok in *.
    rewrite Expand_embedded; try assumption; [| right; discriminate].
    now rewrite replaceMatch_placeholder, Hv.
  - rewrite Htok in *.
    rewrite Expand_embedded; try assumption; [| left; discriminate].
    now rewrite replaceMatch_placeholder, Hv.
Qed.

(** A placeholder that fails is kept and its error is returned. *)
Lemma Expand_in_text_error (values : VariableLookup) (nm fmt : string)
    (fb : option string) (pre post : string) (err : error) :
  validName nm = true -> (fmt = "" \/ isFormat fmt = true) ->
  validFallback fb = true ->
  without "$" pre = true -> without "\" pre = true -> without "$" post = true ->
  expandValue (token nm fmt fb) values = inr err ->
  Expand (VString (pre ++ token nm fmt fb ++ post)) values
  = (VString (pre ++ token nm fmt fb ++ post), Some (Errorf0 err)).
Proof.
  intros Hnm Hfmt Hfb Hpre Hesc Hpost Hv.
  destruct (token_valid_body nm fmt fb Hnm Hfmt Hfb) as (body & Htok & Hne & Hb).
  destruct pre as [|x pre]; [destruct post as [|y post]|].
  - cbn [append]. rewrite !append_nil_r.
    rewrite Expand_token, Hv by assumption. reflexivity.
  - rewrite Htok in *.
    rewrite Expand_embedded; try assumption; [| right; discriminate].
    now rewrite replaceMatch_placeholder, Hv.
  - rewrite Htok in *.
    rewrite Expand_embedded; try assumption; [| left; discriminate].
    now rewrite replaceMatch_placeholder, Hv.
Qed.

(** When no message has a percent sign in it, the error [Expand] returns
    is the messages joined by a comma and a blank. *)
Lemma Join_without (x : ascii) (sep : string) (elems : list string) :
  without x sep = true ->
  Forall (fun e => without x e = true) elems ->
  without x (Strings.Join elems sep) = true.
Proof.
  intros Hsep Helems. unfold Strings.Join.
  induction Helems as [|e elems He Helems IH]; [reflexivity|].
  cbn [String.concat]. destruct elems as [|e' elems]; [exact He|].
  now rewrite !without_app, He, Hsep, IH.
Qed.

Lemma combined_plain (errs : list error) :
  Forall (fun e => without "%" e = true) errs ->
  combined errs
  = match errs with [] => None | _ => Some (Strings.Join errs ", ") end.
Proof.
  intros Herrs. destruct errs as [|e errs]; [reflexivity|].
  unfold combined. f_equal. apply Errorf0_plain.
  now apply Join_without.
Qed.

(** *** What the tail of the pattern of [expandValue] matches *)

Lemma take_prefix (n : nat) (a b : string) :
  n = String.length a -> take n (a ++ b) = a.
Proof. intros ->. apply take_app. Qed.

Lemma closing_inv (pos : nat) (s : string) (c : captures)
    (e : nat) (caps : captures) :
  run (Cat (Lit "}") EndText) accept pos s c = Some (e, caps) ->
  s = "}" /\ caps = c.
Proof.
  cbn [run lit]. destruct s as [|x s]; [discriminate|].
  destruct (Ascii.eqb_spec "}" x) as [<- | ?]; [|discriminate].
  destruct s; [|discriminate]. unfold accept. now intros [= _ <-].
Qed.

Lemma fallback_tail_inv (pos : nat) (s : string) (c : captures)
    (e : nat) (caps : captures) :
  run (Cat (Opt fallbackGroup) (Cat (Lit "}") EndText)) accept pos s c
  = Some (e, caps) ->
  exists fb,
    s = match fb with Some f => ":-" ++ f | None => "" end ++ "}"
    /\ match fb with Some f => without newline f = true | None => True end
    /\ caps = List.app
                match fb with
                | Some f => [("hasFallback", ":-" ++ f); ("fallback", f)]
                | None => []
                end c.
Proof.
  rewrite run_Cat.
  remember (run (Cat (Lit "}") EndText) accept) as K eqn:HK.
  cbn [run]. destruct (run fallbackGroup K pos s c) as [m|] eqn:Hf.
  - intros [= ->]. unfold fallbackGroup in Hf. cbn [run] in Hf.
    apply lit_inv in Hf as (s1 & -> & Hf).
    apply star_inv in Hf as (a & b & -> & Ha & Hf).
    subst K. apply closing_inv in Hf as [-> ->].
    exists (Some a). split; [reflexivity|]. split; [exact Ha|].
    rewrite take_app_sub.
    rewrite (take_prefix _ (":-" ++ a) "}") by (cbn [String.length append]; lia).
    reflexivity.
  - intros H. subst K. apply closing_inv in H as [-> ->].
    now exists None.
Qed.

Lemma valueTail_inv (pos : nat) (s : string) (c : captures)
    (e : nat) (caps : captures) :
  run valueTail accept pos s c = Some (e, caps) ->
  exists fmt fb,
    s = (if fmt =? "" then "" else ":" ++ fmt)
        ++ match fb with Some f => ":-" ++ f | None => "" end ++ "}"
    /\ (fmt = "" \/ isFormat fmt = true)
    /\ match fb with Some f => without newline f = true | None => True end
    /\ caps = List.app
                match fb with
                | Some f => [("hasFallback", ":-" ++ f); ("fallback", f)]
                | None => []
                end
                (List.app
                   (if fmt =? "" then [] else [("hasFormat", ":" ++ fmt); ("format", fmt)])
                   c).
Proof.
  unfold valueTail. rewrite run_Cat.
  remember (run (Cat (Opt fallbackGroup) (Cat (Lit "}") EndText)) accept)
    as K eqn:HK.
  cbn [run]. destruct (run formatGroup K pos s c) as [m|] eqn:Hf.
  - intros [= ->]. unfold formatGroup in Hf. cbn [run] in Hf.
    apply lit_inv in Hf as (s1 & -> & Hf).
    destruct (lit "number" _ _ s1 c) as [m|] eqn:H1;
      [|destruct (lit "boolean" _ _ s1 c) as [m|] eqn:H2].
    + injection Hf as ->. apply lit_inv in H1 as (s2 & -> & H1).
      rewrite take_app_sub in H1.
      rewrite (take_prefix _ (":" ++ "number") s2) in H1
        by (cbn [String.length append]; lia).
      subst K. apply fallback_tail_inv in H1 as (fb & -> & Hfb & ->).
      exists "number", fb. repeat split; [now right | exact Hfb].
    + injection Hf as ->. apply lit_inv in H2 as (s2 & -> & H2).
      rewrite take_app_sub in H2.
      rewrite (take_prefix _ (":" ++ "boolean") s2) in H2
        by (cbn [String.length append]; lia).
      subst K. apply fallback_tail_inv in H2 as (fb & -> & Hfb & ->).
      exists "boolean", fb. repeat split; [now right | exact Hfb].
    + apply lit_inv in Hf as (s2 & -> & Hf).
      rewrite take_app_sub in Hf.
      rewrite (take_prefix _ (":" ++ "string") s2) in Hf
        by (cbn [String.length append]; lia).
      subst K. apply fallback_tail_inv in Hf as (fb & -> & Hfb & ->).
      exists "string", fb. repeat split; [now right | exact Hfb].
  - intros H. subst K. apply fallback_tail_inv in H as (fb & -> & Hfb & ->).
    exists "", fb. repeat split; [now left | exact Hfb].
Qed.

(** A fallback text with a line break: the dot of the fallback group does
    not take the line break, and nothing else of the pattern does. *)
Lemma valueTail_line_break (pos : nat) (c : captures) (fmt f : string) :
  (fmt = "" \/ isFormat fmt = true) ->
  without newline f = false ->
  run valueTail accept pos
    ((if fmt =? "" then "" else ":" ++ fmt) ++ (":-" ++ f) ++ "}") c = None.
Proof.
  intros Hfmt Hf.
  destruct (run valueTail accept pos _ c) as [[e caps]|] eqn:Hm; [exfalso|reflexivity].
  apply valueTail_inv in Hm as (fmt' & fb & Heq & Hfmt' & Hfb & _).
  apply (f_equal (without newline)) in Heq.
  assert (HL : without newline
                 ((if fmt =? "" then "" else ":" ++ fmt) ++ (":-" ++ f) ++ "}") = false).
  { rewrite !without_app, Hf. repeat rewrite andb_false_r. cbn [andb].
    repeat rewrite andb_false_r. reflexivity. }
  assert (HR : without newline
                 ((if fmt' =? "" then "" else ":" ++ fmt')
                  ++ match fb with Some f' => ":-" ++ f' | None => "" end ++ "}") = true).
  { rewrite !without_app.
    assert (H1 : without newline (if fmt' =? "" then "" else ":" ++ fmt') = true).
    { destruct Hfmt' as [-> | H]; [reflexivity|]. unfold isFormat in H.
      apply orb_prop in H as [H | H]; [apply orb_prop in H as [H | H]|];
        apply String.eqb_eq in H; now subst fmt'. }
    rewrite H1. destruct fb as [f'|]; [|reflexivity].
    rewrite without_app, Hfb. reflexivity. }
  congruence.
Qed.

Lemma parseValue_line_break (nm fmt f : string) :
  without ":" nm = true ->
  (fmt = "" \/ isFormat fmt = true) ->
  without newline f = false ->
  parseValue (token nm fmt (Some f)) = None.
Proof.
  intros Hnm Hfmt Hf.
  unfold parseValue, valueRegex. rewrite find_anchored. fold valueRegex.
  unfold token. rewrite matchAt_value.
  pose proof (fun pos c => valueTail_line_break pos c fmt f Hfmt Hf) as Htail.
  set (R := (if fmt =? "" then "" else ":" ++ fmt) ++ (":-" ++ f) ++ "}") in *.
  assert (HR : exists R', R = String ":" R').
  { unfold R. destruct Hfmt as [-> | Hfmt].
    - cbn. eauto.
    - destruct fmt; [discriminate Hfmt|]. cbn. eauto. }
  destruct HR as [R' HR]. rewrite HR in *.
  destruct nm as [|x nm].
  - reflexivity.
  - unfold without in Hnm. cbn [allBytes] in Hnm. apply andb_prop in Hnm as [Hx Hnm].
    cbn [append run plus]. rewrite Hx.
    rewrite star_fail; [reflexivity | |].
    + rewrite star_stop by reflexivity. apply Htail.
    + intros n Hn.
      destruct (drop_app_lt nm (String ":" R') n Hn) as (y & rest & _ & -> & Hy).
      specialize (Hy _ Hnm).
      destruct rest; apply valueTail_in_name; intros ->; discriminate Hy.
Qed.

Lemma expandValue_line_break (values : VariableLookup) (nm fmt f : string) :
  without ":" nm = true ->
  (fmt = "" \/ isFormat fmt = true) ->
  without newline f = false ->
  expandValue (token nm fmt (Some f)) values
  = inr (couldNotParse (token nm fmt (Some f))).
Proof.
  intros Hnm Hfmt Hf. unfold expandValue.
  now rewrite parseValue_line_break.
Qed.

Lemma Expand_line_break (values : VariableLookup) (nm fmt f : string) :
  validName nm = true ->
  (fmt = "" \/ isFormat fmt = true) ->
  without "}" f = true -> without newline f = false ->
  Expand (VString (token nm fmt (Some f))) values
  = (VString (token nm fmt (Some f)),
     Some (Errorf0 (couldNotParse (token nm fmt (Some f))))).
Proof.
  intros Hnm Hfmt Hbrace Hf.
  unfold validName in Hnm.
  apply andb_prop in Hnm as [Hnm Hb]. apply andb_prop in Hnm as [Hne Hcolon].
  rewrite Expand_single.
  - now rewrite expandValue_line_break.
  - rewrite token_body, single_matches; [discriminate | | ].
    + destruct nm; [discriminate Hne | discriminate].
    + rewrite !without_app, Hb, Hbrace.
      destruct Hfmt as [-> | H]; [reflexivity|]. unfold isFormat in H.
      apply orb_prop in H as [H | H]; [apply orb_prop in H as [H | H]|];
        apply String.eqb_eq in H; now subst fmt.
Qed.

(** *** Slices and maps *)

Lemma sliceLoop_spec (f : value -> value * list error) (l : list value) :
  forall current2 errs,
    sliceLoop f l current2 errs
    = ((current2 ++ map (fun x => fst (f x)) l)%list,
       (errs ++ List.concat (map (fun x => snd (f x)) l))%list).
Proof.
  induction l as [|x l IH]; intros current2 errs; cbn [sliceLoop map List.concat].
  - now rewrite !app_nil_r.
  - destruct (f x) as [v err] eqn:Hx. fold (sliceLoop f). rewrite IH.
    cbn [fst snd]. now rewrite <- !app_assoc.
Qed.

Lemma mapSet_fresh (k : string) (v : value) (m : list (string * value)) :
  ~ In k (map fst m) -> mapSet k v m = (m ++ [(k, v)])%list.
Proof.
  induction m as [|[k' v'] m IH]; intros Hk; cbn [mapSet app]; [reflexivity|].
  cbn in Hk. destruct (String.eqb_spec k' k) as [-> | Hne].
  - exfalso. apply Hk. now left.
  - rewrite IH; [reflexivity|]. intros Hin. apply Hk. now right.
Qed.

Lemma mapLoop_spec (f : value -> value * list error) (m : list (string * value)) :
  forall current2 errs,
    NoDup (map fst current2 ++ map fst m) ->
    mapLoop f m current2 errs
    = ((current2 ++ map (fun kv => (fst kv, fst (f (snd kv)))) m)%list,
       (errs ++ List.concat (map (fun kv => snd (f (snd kv))) m))%list).
Proof.
  induction m as [|[k v] m IH]; intros current2 errs Hnd; cbn [mapLoop map List.concat].
  - now rewrite !app_nil_r.
  - destruct (f v) as [v' err] eqn:Hv. fold (mapLoop f).
    cbn [map fst] in Hnd.
    assert (Hfresh : ~ In k (map fst current2)).
    { apply NoDup_remove_2 in Hnd. intros Hin. apply Hnd.
      apply in_or_app. now left. }
    rewrite (mapSet_fresh _ _ _ Hfresh). rewrite IH.
    + cbn [fst snd]. rewrite Hv. cbn [fst snd]. now rewrite <- !app_assoc.
    + rewrite map_app. cbn [map fst]. rewrite <- app_assoc. exact Hnd.
Qed.

(** The errors of a slice or a map are the errors of its elements, in the
    order of the loop. *)
Lemma recursion_slice (values : VariableLookup) (l : list value) :
  recursion values (VSlice l)
  = (VSlice (map (fun x => fst (recursion values x)) l),
     List.concat (map (fun x => snd (recursion values x)) l)).
Proof. cbn [recursion]. now rewrite sliceLoop_spec. Qed.

Lemma recursion_map (values : VariableLookup) (m : list (string * value)) :
  NoDup (map fst m) ->
  recursion values (VMap m)
  = (VMap (map (fun kv => (fst kv, fst (recursion values (snd kv)))) m),
     List.concat (map (fun kv => snd (recursion values (snd kv))) m)).
Proof. intros Hm. cbn [recursion]. now rewrite mapLoop_spec. Qed.

Lemma fst_Expand (input : value) (values : VariableLookup) :
  fst (Expand input values) = fst (recursion values input).
Proof. now rewrite Expand_recursion. Qed.

(** ** The claims *)

(** C1. A string that is exactly one placeholder expands to what
    [expandValue] returns for it, with its type: with the format [number]
    the resolved text ["42"] gives the integer 42, the text ["42.5"] the
    floating-point number [ParseFloat] reads from it, and a text neither
    [Atoi] nor [ParseFloat] reads gives the error "... is not a valid
    number" with the placeholder text kept.  A string expands to something
    that is no string only if it is exactly one placeholder. *)
Theorem whole_string_keeps_type (values : VariableLookup) :
  (forall body, body <> "" -> without "}" body = true ->
     Expand (VString ("${" ++ body ++ "}")) values
     = match expandValue ("${" ++ body ++ "}") values with
       | inl v => (toValue v, None)
       | inr err => (VString ("${" ++ body ++ "}"), Some (Errorf0 err))
       end)
  /\ (forall nm fb t,
        validName nm = true -> validFallback fb = true ->
        resolvesTo values nm fb t ->
        Expand (VString (token nm "number" fb)) values
        = match Strconv.Atoi t with
          | Some n => (VInt n, None)
          | None =>
              match ParseFloat t with
              | Some f => (VFloat f, None)
              | None => (VString (token nm "number" fb),
                         Some (Errorf0 (t ++ " is not a valid number")))
              end
          end)
  /\ (forall nm fb,
        validName nm = true -> validFallback fb = true ->
        resolvesTo values nm fb "42" ->
        Expand (VString (token nm "number" fb)) values = (VInt 42, None))
  /\ (forall nm fb f,
        validName nm = true -> validFallback fb = true ->
        resolvesTo values nm fb "42.5" -> ParseFloat "42.5" = Some f ->
        Expand (VString (token nm "number" fb)) values = (VFloat f, None))
  /\ (forall s,
        (forall t, fst (Expand (VString s) values) <> VString t) ->
        exists body, s = "${" ++ body ++ "}" /\ body <> "" /\ without "}" body = true).
Proof.
  assert (Hnumber : forall nm fb t,
    validName nm = true -> validFallback fb = true ->
    resolvesTo values nm fb t ->
    Expand (VString (token nm "number" fb)) values
    = match Strconv.Atoi t with
      | Some n => (VInt n, None)
      | None =>
          match ParseFloat t with
          | Some f => (VFloat f, None)
          | None => (VString (token nm "number" fb),
                     Some (Errorf0 (t ++ " is not a valid number")))
          end
      end).
  { intros nm fb t Hnm Hfb Hv.
    rewrite Expand_token, (expandValue_resolved _ _ _ _ t) by auto.
    unfold coerce. cbn [String.eqb Ascii.eqb Bool.eqb].
    destruct (Strconv.Atoi t); [reflexivity|].
    now destruct (ParseFloat t). }
  repeat split.
  - intros body Hne Hb. apply Expand_single. now rewrite single_matches.
  - exact Hnumber.
  - intros nm fb Hnm Hfb Hv. now rewrite (Hnumber nm fb "42").
  - intros nm fb f Hnm Hfb Hv Hf. rewrite (Hnumber nm fb "42.5"); auto.
    cbn. now rewrite Hf.
  - intros s Hs. apply single_inv. intros Hnone.
    rewrite fst_Expand in Hs. cbn [recursion] in Hs. unfold expandString in Hs.
    rewrite Hnone in Hs.
    destruct (ReplaceAllStringFunc detectRegex s (replaceMatch values)) as [out errs].
    now apply (Hs out).
Qed.

(** C2. A placeholder with a backslash right in front of it is not
    expanded: the backslash is dropped and the placeholder text is kept,
    whatever the lookup answers, and no error is returned.  What stands
    before that backslash, another backslash included, stays as it is. *)
Theorem escaped_placeholder_kept (values : VariableLookup) :
  (forall pre body post,
     body <> "" -> without "}" body = true ->
     without "$" pre = true -> without "$" post = true ->
     Expand (VString (pre ++ ("\${" ++ body ++ "}") ++ post)) values
     = (VString (pre ++ ("${" ++ body ++ "}") ++ post), None))
  /\ Expand (VString "\${X}") values = (VString "${X}", None)
  /\ Expand (VString "\\${X}") values = (VString "\${X}", None).
Proof.
  split; [|split].
  - intros pre body post. apply Expand_escaped.
  - exact (Expand_escaped values "" "X" "" ltac:(discriminate) eq_refl eq_refl eq_refl).
  - exact (Expand_escaped values "\" "X" "" ltac:(discriminate) eq_refl eq_refl eq_refl).
Qed.

(** C3, as the code has it.  A placeholder whose format tag is none of
    [number], [boolean], [string] does not match the pattern of
    [expandValue]: the error is "could not parse" followed by the
    placeholder text, never "format ... is not supported", and the
    placeholder text is kept, alone or inside a text. *)
Theorem unknown_format_not_parsed (values : VariableLookup) (nm after : string) :
  without ":" nm = true -> without "}" nm = true ->
  startsWith "-" after = false ->
  isFormat (formatTag after) = false ->
  without "}" after = true ->
  expandValue ("${" ++ nm ++ ":" ++ after ++ "}") values
  = inr (couldNotParse ("${" ++ nm ++ ":" ++ after ++ "}"))
  /\ (forall fmt,
        couldNotParse ("${" ++ nm ++ ":" ++ after ++ "}") <> unsupportedFormat fmt)
  /\ replaceMatch values ("${" ++ nm ++ ":" ++ after ++ "}")
     = ("${" ++ nm ++ ":" ++ after ++ "}",
        [couldNotParse ("${" ++ nm ++ ":" ++ after ++ "}")])
  /\ Expand (VString ("${" ++ nm ++ ":" ++ after ++ "}")) values
     = (VString ("${" ++ nm ++ ":" ++ after ++ "}"),
        Some (Errorf0 (couldNotParse ("${" ++ nm ++ ":" ++ after ++ "}")))).
Proof.
  intros Hnm Hbrace H1 H2 H3.
  assert (He : expandValue ("${" ++ nm ++ ":" ++ after ++ "}") values
               = inr (couldNotParse ("${" ++ nm ++ ":" ++ after ++ "}")))
    by now apply expandValue_bad_tag.
  repeat split.
  - exact He.
  - discriminate.
  - now rewrite replaceMatch_placeholder, He.
  - rewrite Expand_single, He; [reflexivity|].
    replace (nm ++ ":" ++ after ++ "}") with ((nm ++ ":" ++ after) ++ "}")
      by now rewrite !append_assoc.
    rewrite single_matches; [discriminate | now destruct nm |].
    rewrite !without_app, Hbrace, H3. reflexivity.
Qed.

(** C4, at an input where the code does something else.  The messages are
    joined by a comma and a blank in the order of the traversal, but the
    joined text is given to [fmt.Errorf] as the format string: a percent
    sign in a message is read as a verb, and the error returned is not the
    joined text. *)
Theorem combined_error_is_formatted :
  recursion (fun key => (Some (if key =? "A" then "5%" else "x"), None))
    (VSlice [VString "${A:boolean}"; VString "on ${B:boolean}"])
  = (VSlice [VString "${A:boolean}"; VString "on ${B:boolean}"],
     ["5% is not a valid boolean"; "x is not a valid boolean"])
  /\ Strings.Join ["5% is not a valid boolean"; "x is not a valid boolean"] ", "
     = "5% is not a valid boolean, x is not a valid boolean"
  /\ Expand (VSlice [VString "${A:boolean}"; VString "on ${B:boolean}"])
       (fun key => (Some (if key =? "A" then "5%" else "x"), None))
     = (VSlice [VString "${A:boolean}"; VString "on ${B:boolean}"],
        Some "5%!i(MISSING)s not a valid boolean, x is not a valid boolean").
Proof. split; [reflexivity | split; reflexivity]. Qed.

(** C5, as the code has it.  When the lookup of [MISSING] returns an error,
    [Expand] of ["${MISSING}"] returns that text and an error made from the
    message of the lookup, which is that message when it has no percent
    sign.  With [ExpandMap] and [ExpandEnv] the message names the
    variable. *)
Theorem missing_without_fallback :
  (forall (values : VariableLookup) v e,
     values "MISSING" = (v, Some e) ->
     Expand (VString "${MISSING}") values
     = (VString "${MISSING}", Some (Errorf0 e)))
  /\ (forall (values : VariableLookup) v e,
        values "MISSING" = (v, Some e) -> without "%" e = true ->
        Expand (VString "${MISSING}") values = (VString "${MISSING}", Some e))
  /\ (forall values,
        mapIndex values "MISSING" = None ->
        ExpandMap (VString "${MISSING}") values
        = (VString "${MISSING}", Some "variable MISSING is missing"))
  /\ (forall LookupEnv,
        LookupEnv "MISSING" = None ->
        ExpandEnv LookupEnv (VString "${MISSING}")
        = (VString "${MISSING}", Some "environment variable MISSING is missing"))
  /\ Strings.Contains "variable MISSING is missing" "MISSING" = true
  /\ Strings.Contains "environment variable MISSING is missing" "MISSING" = true.
Proof.
  assert (H : forall (values : VariableLookup) v e,
     values "MISSING" = (v, Some e) ->
     Expand (VString "${MISSING}") values
     = (VString "${MISSING}", Some (Errorf0 e))).
  { intros values v e Hv.
    change "${MISSING}" with (token "MISSING" "" None).
    rewrite Expand_token, expandValue_token, Hv by auto. reflexivity. }
  repeat split.
  - exact H.
  - intros values v e Hv He. rewrite (H values v e Hv).
    now rewrite Errorf0_plain.
  - intros values Hv. unfold ExpandMap.
    rewrite (H _ None "variable MISSING is missing"); [reflexivity|].
    cbv beta. now rewrite Hv.
  - intros LookupEnv Hv. unfold ExpandEnv.
    rewrite (H _ None "environment variable MISSING is missing"); [reflexivity|].
    cbv beta. now rewrite Hv.
Qed.

(** C6, as the code has it.  When the lookup of a name returns an error, a
    placeholder with a fallback clause whose text has no line break is
    expanded from the fallback text: without a format it expands to that
    text, the empty one included, and there is no error; without the
    clause the error is returned.  A fallback text with a line break is
    not taken by the pattern of [expandValue]: the placeholder text is
    kept and the error is "could not parse" followed by it. *)
Theorem fallback_for_missing (values : VariableLookup) (nm f : string)
    (v : option string) (e : error) :
  validName nm = true -> validFallback (Some f) = true ->
  values nm = (v, Some e) ->
  Expand (VString (token nm "" (Some f))) values = (VString f, None)
  /\ (forall pre post,
        without "$" pre = true -> without "\" pre = true ->
        without "$" post = true ->
        Expand (VString (pre ++ token nm "" (Some f) ++ post)) values
        = (VString (pre ++ f ++ post), None))
  /\ (forall fmt,
        isFormat fmt = true ->
        expandValue (token nm fmt (Some f)) values = coerce fmt f)
  /\ Expand (VString (token nm "" None)) values
     = (VString (token nm "" None), Some (Errorf0 e))
  /\ (forall fmt f',
        (fmt = "" \/ isFormat fmt = true) ->
        without "}" f' = true -> without newline f' = false ->
        expandValue (token nm fmt (Some f')) values
        = inr (couldNotParse (token nm fmt (Some f')))
        /\ Expand (VString (token nm fmt (Some f'))) values
           = (VString (token nm fmt (Some f')),
              Some (Errorf0 (couldNotParse (token nm fmt (Some f')))))).
Proof.
  intros Hnm Hf Hv.
  assert (Hs : expandValue (token nm "" (Some f)) values = inl (EString f)).
  { rewrite expandValue_token, Hv by auto. reflexivity. }
  repeat split.
  - rewrite Expand_token, Hs by auto. reflexivity.
  - intros pre post Hpre Hesc Hpost.
    apply Expand_in_text_string; auto.
  - intros fmt Hfmt. rewrite expandValue_token, Hv by auto. reflexivity.
  - rewrite Expand_token, expandValue_token, Hv by auto. reflexivity.
  - apply expandValue_line_break; try assumption.
    unfold validName in Hnm. apply andb_prop in Hnm as [Hnm _].
    now apply andb_prop in Hnm as [_ Hnm].
  - now apply Expand_line_break.
Qed.

(** C7. When the lookup returns neither a value nor an error, the
    placeholder text is kept as it is, alone or inside a text, and there is
    no error. *)
Theorem absent_value_keeps_text (values : VariableLookup) (nm fmt : string)
    (fb : option string) :
  validName nm = true -> (fmt = "" \/ isFormat fmt = true) ->
  validFallback fb = true ->
  values nm = (None, None) ->
  expandValue (token nm fmt fb) values = inl (EString (token nm fmt fb))
  /\ Expand (VString (token nm fmt fb)) values = (VString (token nm fmt fb), None)
  /\ (forall pre post,
        without "$" pre = true -> without "\" pre = true ->
        without "$" post = true ->
        Expand (VString (pre ++ token nm fmt fb ++ post)) values
        = (VString (pre ++ token nm fmt fb ++ post), None)).
Proof.
  intros Hnm Hfmt Hfb Hv.
  assert (Hs : expandValue (token nm fmt fb) values
               = inl (EString (token nm fmt fb))).
  { rewrite expandValue_token, Hv by auto. reflexivity. }
  repeat split.
  - exact Hs.
  - rewrite Expand_token, Hs by auto. reflexivity.
  - intros pre post Hpre Hesc Hpost.
    apply Expand_in_text_string; auto.
Qed.

(** C8. With the format [boolean], a placeholder that is the whole string
    and resolves to one of the texts [1], [true], [yes] gives [true], to one
    of [0], [false], [no] gives [false], and to any other text gives the
    error "... is not a valid boolean" with the placeholder text kept; for
    ["42"] the message is "42 is not a valid boolean". *)
Theorem boolean_literals (values : VariableLookup) (nm : string)
    (fb : option string) (t : string) :
  validName nm = true -> validFallback fb = true ->
  resolvesTo values nm fb t ->
  (if (t =? "1") || (t =? "true") || (t =? "yes")
   then Expand (VString (token nm "boolean" fb)) values = (VBool true, None)
   else if (t =? "0") || (t =? "false") || (t =? "no")
   then Expand (VString (token nm "boolean" fb)) values = (VBool false, None)
   else recursion values (VString (token nm "boolean" fb))
        = (VString (token nm "boolean" fb), [t ++ " is not a valid boolean"])
        /\ Expand (VString (token nm "boolean" fb)) values
           = (VString (token nm "boolean" fb),
              Some (Errorf0 (t ++ " is not a valid boolean"))))
  /\ (t = "42" ->
      Expand (VString (token nm "boolean" fb)) values
      = (VString (token nm "boolean" fb), Some "42 is not a valid boolean")).
Proof.
  intros Hnm Hfb Hv.
  assert (He : expandValue (token nm "boolean" fb) values = coerce "boolean" t)
    by (apply expandValue_resolved; auto).
  assert (Hs : FindStringSubmatch singleRegex (token nm "boolean" fb) = Some [])
    by (apply single_token; auto).
  split.
  - rewrite Expand_token, He by auto.
    cbn [recursion]. unfold expandString. rewrite Hs, He.
    unfold coerce. cbn [String.eqb Ascii.eqb Bool.eqb].
    destruct (String.eqb_spec t "1"); [subst; reflexivity|].
    destruct (String.eqb_spec t "true"); [subst; reflexivity|].
    destruct (String.eqb_spec t "yes"); [subst; reflexivity|].
    destruct (String.eqb_spec t "0"); [subst; reflexivity|].
    destruct (String.eqb_spec t "false"); [subst; reflexivity|].
    destruct (String.eqb_spec t "no"); [subst; reflexivity|].
    cbn [orb]. now split.
  - intros ->. rewrite Expand_token, He by auto. reflexivity.
Qed.

(** C9. Numbers, booleans and nil are returned as they are, with no error;
    a slice becomes a slice of the same length whose elements are the
    expanded elements, in order; a map becomes a map with the same keys,
    each with its expanded value. *)
Theorem structure_preserved (values : VariableLookup) :
  Expand VNil values = (VNil, None)
  /\ (forall n, Expand (VInt n) values = (VInt n, None))
  /\ (forall f, Expand (VFloat f) values = (VFloat f, None))
  /\ (forall b, Expand (VBool b) values = (VBool b, None))
  /\ (forall l,
        fst (Expand (VSlice l) values)
        = VSlice (map (fun x => fst (Expand x values)) l))
  /\ (forall m,
        NoDup (map fst m) ->
        exists m',
          fst (Expand (VMap m) values) = VMap m'
          /\ map fst m' = map fst m
          /\ forall k v, In (k, v) m -> In (k, fst (Expand v values)) m').
Proof.
  repeat split.
  - intros l. rewrite fst_Expand, recursion_slice. cbn [fst]. f_equal.
    apply map_ext. intros x. now rewrite fst_Expand.
  - intros m Hm.
    exists (map (fun kv => (fst kv, fst (Expand (snd kv) values))) m).
    repeat split.
    + rewrite fst_Expand, recursion_map by exact Hm. cbn [fst]. f_equal.
      apply map_ext. intros [k v]. cbn [fst snd]. now rewrite fst_Expand.
    + rewrite map_map. now apply map_ext.
    + intros k v Hin.
      apply (in_map (fun kv => (fst kv, fst (Expand (snd kv) values)))) in Hin.
      exact Hin.
Qed.

(** C10. A node of any other dynamic type than [string], [[]interface{}]
    and [map[string]interface{}] is returned as it is, with no error. *)
Theorem other_node_unchanged (values : VariableLookup) (input : value) :
  (forall s, input <> VString s) ->
  (forall l, input <> VSlice l) ->
  (forall m, input <> VMap m) ->
  Expand input values = (input, None).
Proof.
  intros Hs Hl Hm.
  destruct input; try reflexivity; exfalso;
    [eapply Hs | eapply Hl | eapply Hm]; reflexivity.
Qed.

(** ** Further properties *)

(** *** Induction on values and the loops *)

Lemma value_ind' (P : value -> Prop) :
  P VNil ->
  (forall s, P (VString s)) ->
  (forall n, P (VInt n)) ->
  (forall f, P (VFloat f)) ->
  (forall b, P (VBool b)) ->
  (forall l, Forall P l -> P (VSlice l)) ->
  (forall m, Forall (fun kv => P (snd kv)) m -> P (VMap m)) ->
  (forall o, P (VOther o)) ->
  forall v, P v.
Proof.
  intros Hnil Hstring Hint Hfloat Hbool Hslice Hmap Hother.
  fix IH 1. intros [ | s | n | f | b | l | m | o].
  - exact Hnil.
  - apply Hstring.
  - apply Hint.
  - apply Hfloat.
  - apply Hbool.
  - apply Hslice. induction l as [|x l IHl]; constructor; [apply IH | exact IHl].
  - apply Hmap. induction m as [|[k x] m IHm]; constructor; [apply IH | exact IHm].
  - apply Hother.
Qed.

Lemma sliceLoop_ext (f1 f2 : value -> value * list error) (l : list value) :
  Forall (fun x => f1 x = f2 x) l ->
  forall current2 errs,
    sliceLoop f1 l current2 errs = sliceLoop f2 l current2 errs.
Proof.
  induction 1 as [|x l Hx Hl IH]; intros current2 errs; [reflexivity|].
  cbn [sliceLoop]. rewrite Hx. destruct (f2 x) as [v err]. apply IH.
Qed.

Lemma mapLoop_ext (f1 f2 : value -> value * list error)
    (m : list (string * value)) :
  Forall (fun kv => f1 (snd kv) = f2 (snd kv)) m ->
  forall current2 errs,
    mapLoop f1 m current2 errs = mapLoop f2 m current2 errs.
Proof.
  induction 1 as [|[k x] m Hx Hm IH]; intros current2 errs; [reflexivity|].
  cbn [mapLoop]. cbn [snd] in Hx. rewrite Hx. destruct (f2 x) as [v err]. apply IH.
Qed.

Lemma replaceFrom_ext {E : Type} (r : regex) (repl1 repl2 : string -> string * list E)
    (s : string) :
  (forall m, repl1 m = repl2 m) ->
  forall skip pos, replaceFrom r repl1 skip pos s = replaceFrom r repl2 skip pos s.
Proof.
  intros Hrepl. induction s as [|x s IH]; intros skip pos; [reflexivity|].
  cbn [replaceFrom]. destruct skip as [|skip]; [|apply IH].
  destruct (matchAt r pos (String x s)) as [[e c]|].
  - now rewrite Hrepl, IH.
  - now rewrite IH.
Qed.

(** *** Lookup functions that answer alike *)

Lemma expandValue_ext (values1 values2 : VariableLookup) (str : string) :
  (forall key, values1 key = values2 key) ->
  expandValue str values1 = expandValue str values2.
Proof.
  intros H. unfold expandValue. destruct (parseValue str) as [p|]; [|reflexivity].
  now rewrite H.
Qed.

Lemma recursion_ext (values1 values2 : VariableLookup) :
  (forall key, values1 key = values2 key) ->
  forall v, recursion values1 v = recursion values2 v.
Proof.
  intros H. induction v using value_ind'; try reflexivity.
  - cbn [recursion]. unfold expandString.
    rewrite (expandValue_ext values1 values2 s H).
    unfold ReplaceAllStringFunc.
    rewrite (replaceFrom_ext detectRegex (replaceMatch values1) (replaceMatch values2)).
    + reflexivity.
    + intros m. unfold replaceMatch. now rewrite (expandValue_ext values1 values2 m H).
  - cbn [recursion]. now rewrite (sliceLoop_ext _ _ l H0).
  - cbn [recursion]. now rewrite (mapLoop_ext _ _ m H0).
Qed.

Lemma Expand_ext (values1 values2 : VariableLookup) (input : value) :
  (forall key, values1 key = values2 key) ->
  Expand input values1 = Expand input values2.
Proof. intros H. unfold Expand. now rewrite (recursion_ext values1 values2 H). Qed.

(** *** The earlier file *)

Lemma expandEnvValue_expandValue (values : list (string * string)) (str : string) :
  expandEnvValue str values
  = expandValue str (fun key =>
      match mapIndex values key with
      | None => (None, Some ("environment variable " ++ key ++ " is missing"))
      | Some value => (Some value, None)
      end).
Proof.
  unfold expandEnvValue, expandValue.
  destruct (parseValue str) as [p|]; [|reflexivity].
  now destruct (mapIndex values (name p)).
Qed.

Lemma recursion_v2_recursion (values : list (string * string)) (v : value) :
  recursion_v2 values v
  = recursion (fun key =>
      match mapIndex values key with
      | None => (None, Some ("environment variable " ++ key ++ " is missing"))
      | Some value => (Some value, None)
      end) v.
Proof.
  induction v using value_ind'; try reflexivity.
  - cbn [recursion_v2 recursion]. unfold expandString_v2, expandString.
    rewrite expandEnvValue_expandValue. unfold ReplaceAllStringFunc.
    rewrite (replaceFrom_ext detectRegex (replaceMatch_v2 values)
               (replaceMatch (fun key =>
                  match mapIndex values key with
                  | None => (None, Some ("environment variable " ++ key ++ " is missing"))
                  | Some value => (Some value, None)
                  end))).
    + reflexivity.
    + intros m. unfold replaceMatch_v2, replaceMatch.
      now rewrite expandEnvValue_expandValue.
  - cbn [recursion_v2 recursion]. now rewrite (sliceLoop_ext _ _ l H).
  - cbn [recursion_v2 recursion]. now rewrite (mapLoop_ext _ _ m H).
Qed.

(** X1. [Expand] of the earlier file, which takes a map, is [ExpandEnv] of
    the later file run with the map as the environment: same output, same
    error. *)
Theorem Expand_v2_is_ExpandEnv (input : value) (values : list (string * string)) :
  Expand_v2 input values = ExpandEnv (mapIndex values) input.
Proof.
  unfold Expand_v2, ExpandEnv, Expand. now rewrite recursion_v2_recursion.
Qed.

(** *** [environMap] *)

Lemma mapIndex_stringMapSet (k v : string) (m : list (string * string)) (key : string) :
  mapIndex (stringMapSet k v m) key
  = if k =? key then Some v else mapIndex m key.
Proof.
  induction m as [|[k' v'] m IH]; cbn [stringMapSet mapIndex]; [reflexivity|].
  destruct (String.eqb_spec k' k) as [-> | Hk]; cbn [mapIndex].
  - now destruct (k =? key).
  - rewrite IH. destruct (String.eqb_spec k' key) as [-> | Hkey]; [|reflexivity].
    destruct (String.eqb_spec k key); [congruence | reflexivity].
Qed.

Lemma cut_none (sep : ascii) (s : string) :
  cut sep s = None <-> without sep s = true.
Proof.
  unfold without. induction s as [|x s IH]; cbn [cut allBytes cmatch];
    [split; reflexivity|].
  destruct (Ascii.eqb x sep); cbn [negb andb].
  - split; discriminate.
  - destruct (cut sep s) as [[b a]|].
    + split; [discriminate|]. intros H. apply IH in H. discriminate.
    + split; intros H; [now apply IH | reflexivity].
Qed.

Lemma cut_app (sep : ascii) (k v : string) :
  without sep k = true -> cut sep (k ++ String sep v) = Some (k, v).
Proof.
  unfold without. induction k as [|x k IH]; cbn [append cut allBytes cmatch].
  - now rewrite Ascii.eqb_refl.
  - intros H. apply andb_prop in H as [Hx Hk].
    destruct (Ascii.eqb x sep); [discriminate|]. now rewrite IH.
Qed.

Lemma environLoop_step (entry : string) (rest : list string)
    (result : list (string * string)) :
  environLoop (entry :: rest) result
  = match cut "=" entry with
    | Some (key, value) => environLoop rest (stringMapSet key value result)
    | None => None
    end.
Proof.
  cbn [environLoop]. unfold splitN2. now destruct (cut "=" entry) as [[k v]|].
Qed.

Lemma environLoop_lookup (entries : list string) :
  forall result m key,
    environLoop entries result = Some m ->
    mapIndex m key
    = match environValue entries key with
      | Some v => Some v
      | None => mapIndex result key
      end.
Proof.
  induction entries as [|entry rest IH]; intros result m key Hm.
  - injection Hm as <-. reflexivity.
  - rewrite environLoop_step in Hm. cbn [environValue].
    destruct (cut "=" entry) as [[k v]|]; [|discriminate].
    rewrite (IH _ _ key Hm), mapIndex_stringMapSet.
    destruct (environValue rest key); [reflexivity|].
    now destruct (k =? key).
Qed.

Lemma environLoop_none (entries : list string) :
  forall result,
    environLoop entries result = None
    <-> exists entry, In entry entries /\ without "=" entry = true.
Proof.
  induction entries as [|entry rest IH]; intros result.
  - cbn. split; [discriminate | intros (e & [] & _)].
  - rewrite environLoop_step.
    destruct (cut "=" entry) as [[k v]|] eqn:Hcut.
    + rewrite IH. split.
      * intros (e & He & Hw). exists e. split; [now right | exact Hw].
      * intros (e & [<- | He] & Hw); [|now exists e].
        apply cut_none in Hw. congruence.
    + split; [|reflexivity]. intros _. exists entry.
      split; [now left | now apply cut_none].
Qed.

(** X2. The map [environMap] builds holds, for every name, the value of
    the last entry of [os.Environ()] for that name, an entry being cut at
    its first equals sign. *)
Theorem environMap_lookup (Environ : list string) (m : list (string * string))
    (key : string) :
  environMap Environ = Some m ->
  mapIndex m key = environValue Environ key.
Proof.
  intros Hm. rewrite (environLoop_lookup _ _ _ key Hm).
  now destruct (environValue Environ key).
Qed.

(** X3. [environMap] panics, on [splitted[1]], exactly when some entry of
    [os.Environ()] has no equals sign. *)
Theorem environMap_panics (Environ : list string) :
  environMap Environ = None
  <-> exists entry, In entry Environ /\ without "=" entry = true.
Proof. apply environLoop_none. Qed.

(** X4. An entry [name=value] whose name has no equals sign gives [name]
    the text [value], equals signs in it included, unless a later entry is
    for the same name. *)
Theorem environMap_entry (before later : list string) (k v : string)
    (m : list (string * string)) :
  without "=" k = true ->
  (forall entry v', In entry later -> cut "=" entry <> Some (k, v')) ->
  environMap (before ++ (k ++ "=" ++ v) :: later) = Some m ->
  mapIndex m k = Some v.
Proof.
  intros Hk Hlater Hm. rewrite (environLoop_lookup _ _ _ k Hm). clear Hm.
  assert (Hnone : environValue later k = None).
  { revert Hlater. induction later as [|entry later IH]; intros Hlater; [reflexivity|].
    cbn [environValue]. rewrite IH by (intros e v' He; apply Hlater; now right).
    destruct (cut "=" entry) as [[k' v']|] eqn:Hcut; [|reflexivity].
    destruct (String.eqb_spec k' k) as [-> | ?]; [|reflexivity].
    exfalso. now apply (Hlater entry v' (or_introl eq_refl)). }
  assert (Hvalue : environValue (before ++ (k ++ "=" ++ v) :: later) k = Some v).
  { induction before as [|entry before IH]; cbn [app environValue].
    - rewrite Hnone. change (k ++ "=" ++ v) with (k ++ String "=" v).
      rewrite cut_app by exact Hk. now rewrite String.eqb_refl.
    - now rewrite IH. }
  now rewrite Hvalue.
Qed.

(** X5. [ExpandEnv] of the earlier file panics when an entry of
    [os.Environ()] has no equals sign, and otherwise is [ExpandEnv] of the
    later file for the lookup that gives each name the value of its last
    entry. *)
Theorem ExpandEnv_v2_is_ExpandEnv (Environ : list string) (input : value) :
  ExpandEnv_v2 Environ input
  = match environMap Environ with
    | Some _ => Some (ExpandEnv (environValue Environ) input)
    | None => None
    end.
Proof.
  unfold ExpandEnv_v2. destruct (environMap Environ) as [m|] eqn:Hm; [|reflexivity].
  unfold Expand_v2, ExpandEnv. rewrite recursion_v2_recursion. f_equal.
  apply Expand_ext. intros key. rewrite (environLoop_lookup _ _ _ key Hm).
  now destruct (environValue Environ key).
Qed.

(** *** Texts without a placeholder *)

Lemma lit_opening_none (k : cont) (pos : nat) (x : ascii) (s : string) (c : captures) :
  (Ascii.eqb x "$" && startsWith "{" s) = false ->
  lit "${" k pos (String x s) c = None.
Proof.
  intros H. cbn [lit]. rewrite Ascii.eqb_sym.
  destruct (Ascii.eqb x "$"); [|reflexivity].
  destruct s as [|y s]; [reflexivity|].
  cbn in H. rewrite Ascii.eqb_sym. now rewrite H.
Qed.

Lemma detect_none_opening (pos : nat) (s : string) :
  hasOpening s = false -> matchAt detectRegex pos s = None.
Proof.
  intros Hs. unfold matchAt, detectRegex. rewrite run_Cat.
  remember (run (Cat (Lit "${") (Cat (Plus (CExcept "}")) (Lit "}"))) accept)
    as K eqn:HK.
  assert (HKs : forall p x t c,
            (Ascii.eqb x "$" && startsWith "{" t) = false -> K p (String x t) c = None).
  { intros p x t c H. subst K. rewrite run_Cat. cbn [run].
    now apply lit_opening_none. }
  assert (HKe : forall p c, K p "" c = None) by (intros; now subst K).
  cbn [run lit]. destruct s as [|x s]; [apply HKe|].
  cbn [hasOpening] in Hs. apply orb_false_elim in Hs as [Hx Hs].
  rewrite (HKs pos x s [] Hx).
  destruct (Ascii.eqb "\" x); [|reflexivity].
  destruct s as [|y s]; [now rewrite HKe|].
  cbn [hasOpening] in Hs. apply orb_false_elim in Hs as [Hy _].
  now rewrite (HKs _ y s [] Hy).
Qed.

Lemma replace_no_opening {E : Type} (repl : string -> string * list E) (s : string) :
  hasOpening s = false ->
  forall pos, replaceFrom detectRegex repl 0 pos s = (s, []).
Proof.
  induction s as [|x s IH]; intros Hs pos; [reflexivity|].
  cbn [replaceFrom]. rewrite detect_none_opening by exact Hs.
  cbn [hasOpening] in Hs. apply orb_false_elim in Hs as [_ Hs].
  now rewrite IH.
Qed.

Lemma single_no_opening (s : string) :
  hasOpening s = false -> FindStringSubmatch singleRegex s = None.
Proof.
  intros Hs. unfold singleRegex. rewrite find_anchored.
  unfold matchAt. rewrite run_Cat. cbn [run Nat.eqb].
  destruct s as [|x s]; [reflexivity|].
  cbn [hasOpening] in Hs. apply orb_false_elim in Hs as [Hx _].
  now rewrite lit_opening_none.
Qed.

(** X6. A string in which the two bytes that open a placeholder do not
    occur is returned as it is, with no error, whatever the lookup
    function. *)
Theorem text_without_opening (values : VariableLookup) (s : string) :
  hasOpening s = false ->
  Expand (VString s) values = (VString s, None).
Proof.
  intros Hs. rewrite Expand_recursion. cbn [recursion]. unfold expandString.
  rewrite single_no_opening by exact Hs. unfold ReplaceAllStringFunc.
  now rewrite replace_no_opening.
Qed.

(** *** Several placeholders in one text *)

Lemma replace_placeholder {E : Type} (repl : string -> string * list E)
    (pre body rest : string) (pos : nat) :
  body <> "" -> without "}" body = true ->
  without "$" pre = true -> without "\" pre = true ->
  replaceFrom detectRegex repl 0 pos (pre ++ ("${" ++ body ++ "}") ++ rest)
  = (pre ++ fst (repl ("${" ++ body ++ "}"))
         ++ fst (replaceFrom detectRegex repl 0
                   (pos + String.length pre + String.length ("${" ++ body ++ "}")) rest),
     List.app (snd (repl ("${" ++ body ++ "}")))
       (snd (replaceFrom detectRegex repl 0
               (pos + String.length pre + String.length ("${" ++ body ++ "}")) rest))).
Proof.
  intros Hne Hb Hpre Hesc.
  rewrite replace_literal; [| exact Hpre | now left].
  rewrite (replace_match _ _ _ _ _ []);
    [| now destruct body | now apply detect_plain].
  reflexivity.
Qed.

(** X7. Two placeholders in one text are expanded one after the other,
    each on its own: the text between them stays, each is replaced by what
    its expansion gives or kept when it fails, and the errors come in the
    order of the placeholders. *)
Theorem two_placeholders (values : VariableLookup) (a b c body1 body2 : string) :
  body1 <> "" -> without "}" body1 = true ->
  body2 <> "" -> without "}" body2 = true ->
  without "$" a = true -> without "\" a = true ->
  without "$" b = true -> without "\" b = true ->
  without "$" c = true ->
  Expand (VString (a ++ ("${" ++ body1 ++ "}") ++ b ++ ("${" ++ body2 ++ "}") ++ c))
    values
  = (VString (a ++ fst (replaceMatch values ("${" ++ body1 ++ "}"))
                ++ b ++ fst (replaceMatch values ("${" ++ body2 ++ "}")) ++ c),
     combined (List.app (snd (replaceMatch values ("${" ++ body1 ++ "}")))
                        (snd (replaceMatch values ("${" ++ body2 ++ "}"))))).
Proof.
  intros Hne1 Hb1 Hne2 Hb2 Ha Haesc Hb Hbesc Hc.
  rewrite Expand_recursion. cbn [recursion]. unfold expandString.
  assert (Hsingle : FindStringSubmatch singleRegex
            (a ++ ("${" ++ body1 ++ "}") ++ b ++ ("${" ++ body2 ++ "}") ++ c) = None).
  { destruct a as [|x a].
    - apply single_followed; [exact Hne1 | exact Hb1 |].
      destruct b; discriminate.
    - apply single_none. apply startsWith_app; [discriminate | exact Ha]. }
  rewrite Hsingle. unfold ReplaceAllStringFunc.
  rewrite replace_placeholder by assumption.
  rewrite replace_placeholder by assumption.
  rewrite replace_plain_text by exact Hc.
  cbn [fst snd]. now rewrite app_nil_r.
Qed.

(** X8. The backslash protects a placeholder for one expansion: expanding
    the result again expands the placeholder. *)
Theorem escape_lasts_one_pass (values1 values2 : VariableLookup) (body : string) :
  body <> "" -> without "}" body = true ->
  Expand (fst (Expand (VString ("\${" ++ body ++ "}")) values1)) values2
  = Expand (VString ("${" ++ body ++ "}")) values2.
Proof.
  intros Hne Hb.
  pose proof (Expand_escaped values1 "" body "" Hne Hb eq_refl eq_refl) as H.
  cbn [append] in H. rewrite !append_nil_r in H.
  cbn [append]. now rewrite H.
Qed.

(** *** What a placeholder is replaced by *)

(** X9. Without a format, or with the format [string], a placeholder is
    replaced by the resolved text byte for byte, alone or inside a text:
    line breaks stay, and a resolved text that looks like a placeholder is
    not expanded again. *)
Theorem text_passes_through (values : VariableLookup) (nm fmt : string)
    (fb : option string) (t pre post : string) :
  validName nm = true -> (fmt = "" \/ fmt = "string") ->
  validFallback fb = true ->
  resolvesTo values nm fb t ->
  without "$" pre = true -> without "\" pre = true -> without "$" post = true ->
  Expand (VString (pre ++ token nm fmt fb ++ post)) values
  = (VString (pre ++ t ++ post), None).
Proof.
  intros Hnm Hfmt Hfb Ht Hpre Hesc Hpost.
  assert (Hfmt' : fmt = "" \/ isFormat fmt = true)
    by (destruct Hfmt as [-> | ->]; [now left | now right]).
  apply Expand_in_text_string; try assumption.
  rewrite (expandValue_resolved _ _ _ _ t) by assumption.
  now destruct Hfmt as [-> | ->].
Qed.

(** X10. Inside a longer text a placeholder with a format is replaced by
    the text [%v] prints for its typed value: for [number] and a text
    [Atoi] reads, the decimal digits of the integer. *)
Theorem typed_value_inside_text (values : VariableLookup) (nm fmt : string)
    (fb : option string) (t pre post : string) (e : expanded) :
  validName nm = true -> (fmt = "" \/ isFormat fmt = true) ->
  validFallback fb = true ->
  resolvesTo values nm fb t ->
  coerce fmt t = inl e ->
  without "$" pre = true -> without "\" pre = true -> without "$" post = true ->
  pre <> "" \/ post <> "" ->
  Expand (VString (pre ++ token nm fmt fb ++ post)) values
  = (VString (pre ++ Sprintv e ++ post), None)
  /\ (forall n, fmt = "number" -> Strconv.Atoi t = Some n ->
        Sprintv e = Strconv.Itoa n).
Proof.
  intros Hnm Hfmt Hfb Ht He Hpre Hesc Hpost Hround.
  split.
  - destruct (token_valid_body nm fmt fb Hnm Hfmt Hfb) as (body & Htok & Hne & Hb).
    assert (Hv : expandValue ("${" ++ body ++ "}") values = inl e).
    { rewrite <- Htok, (expandValue_resolved _ _ _ _ t) by assumption. exact He. }
    rewrite Htok, Expand_embedded by assumption.
    now rewrite replaceMatch_placeholder, Hv.
  - intros n -> Hn. unfold coerce in He. cbn [String.eqb Ascii.eqb Bool.eqb] in He.
    rewrite Hn in He. now injection He as <-.
Qed.

(** *** The error of a slice and of a map *)

Lemma mapLoop_errors (f : value -> value * list error) (m : list (string * value)) :
  forall current2 errs,
    snd (mapLoop f m current2 errs)
    = (errs ++ List.concat (map (fun kv => snd (f (snd kv))) m))%list.
Proof.
  induction m as [|[k v] m IH]; intros current2 errs; cbn [mapLoop map List.concat].
  - now rewrite app_nil_r.
  - destruct (f v) as [v' err] eqn:Hv. fold (mapLoop f). rewrite IH.
    cbn [snd]. rewrite Hv. cbn [snd]. now rewrite <- app_assoc.
Qed.

Lemma recursion_map_errors (values : VariableLookup) (m : list (string * value)) :
  snd (recursion values (VMap m))
  = List.concat (map (fun kv => snd (recursion values (snd kv))) m).
Proof.
  cbn [recursion].
  pose proof (mapLoop_errors (recursion values) m [] []) as H.
  destruct (mapLoop (recursion values) m [] []) as [current2 errs].
  exact H.
Qed.

Lemma combined_none (errs : list error) : combined errs = None <-> errs = [].
Proof. destruct errs; split; intros H; try reflexivity; discriminate. Qed.

Lemma Expand_no_error (input : value) (values : VariableLookup) :
  snd (Expand input values) = None <-> snd (recursion values input) = [].
Proof. rewrite Expand_recursion. cbn [snd]. apply combined_none. Qed.

Lemma concat_nil_iff {A : Type} (l : list (list A)) :
  List.concat l = [] <-> forall x, In x l -> x = [].
Proof.
  induction l as [|a l IH]; cbn [List.concat].
  - split; [intros _ x [] | reflexivity].
  - split.
    + intros H x [<- | Hx].
      * now apply app_eq_nil in H.
      * apply app_eq_nil in H as [_ H]. now apply IH.
    + intros H. rewrite (H a (or_introl eq_refl)). cbn [app].
      apply IH. intros x Hx. apply H. now right.
Qed.

(** X11. [Expand] of a slice returns a nil error exactly when [Expand] of
    every element does, and [Expand] of a map exactly when [Expand] of
    every value in it does. *)
Theorem no_error_iff_elements (values : VariableLookup) :
  (forall l,
     snd (Expand (VSlice l) values) = None
     <-> forall x, In x l -> snd (Expand x values) = None)
  /\ (forall m,
        snd (Expand (VMap m) values) = None
        <-> forall k x, In (k, x) m -> snd (Expand x values) = None).
Proof.
  split.
  - intros l. rewrite Expand_no_error, recursion_slice. cbn [snd].
    rewrite concat_nil_iff. split.
    + intros H x Hx. apply Expand_no_error. apply H.
      now apply (in_map (fun x => snd (recursion values x))).
    + intros H errs Herrs. apply in_map_iff in Herrs as (x & <- & Hx).
      now apply Expand_no_error, H.
  - intros m. rewrite Expand_no_error, recursion_map_errors.
    rewrite concat_nil_iff. split.
    + intros H k x Hx. apply Expand_no_error. apply H.
      now apply (in_map (fun kv => snd (recursion values (snd kv))) m (k, x)).
    + intros H errs Herrs. apply in_map_iff in Herrs as ([k x] & <- & Hx).
      cbn [snd]. apply Expand_no_error. now apply (H k x).
Qed.

(** X12. When no message of the traversal has a percent sign, the error
    [Expand] returns is the messages joined by a comma and a blank, in the
    order of the traversal; with no message it is nil. *)
Theorem error_is_joined_messages (values : VariableLookup) (input : value) :
  Forall (fun e => without "%" e = true) (snd (recursion values input)) ->
  Expand input values
  = (fst (recursion values input),
     match snd (recursion values input) with
     | [] => None
     | _ => Some (Strings.Join (snd (recursion values input)) ", ")
     end).
Proof.
  intros H. rewrite Expand_recursion. now rewrite combined_plain.
Qed.

(** *** Lookup functions that differ in their messages only *)

Lemma expandValue_same (values1 values2 : VariableLookup) (str : string) :
  sameAnswers values1 values2 ->
  match expandValue str values1, expandValue str values2 with
  | inl a, inl b => a = b
  | inr _, inr _ => True
  | _, _ => False
  end.
Proof.
  intros H. unfold expandValue. destruct (parseValue str) as [p|]; [|exact I].
  specialize (H (name p)).
  destruct (values1 (name p)) as [x1 e1], (values2 (name p)) as [x2 e2].
  cbn [fst snd] in H. destruct e1 as [e1|], e2 as [e2|]; try contradiction.
  - destruct (negb (hasFallback p)); [exact I|].
    now destruct (coerce (format p) (fallback p)).
  - subst x2. destruct x1 as [v|]; [|reflexivity].
    now destruct (coerce (format p) v).
Qed.

Lemma replaceMatch_same (values1 values2 : VariableLookup) (m : string) :
  sameAnswers values1 values2 ->
  fst (replaceMatch values1 m) = fst (replaceMatch values2 m)
  /\ List.length (snd (replaceMatch values1 m))
     = List.length (snd (replaceMatch values2 m)).
Proof.
  intros H. unfold replaceMatch.
  destruct (Strings.HasPrefix m "\"); [now split|].
  pose proof (expandValue_same values1 values2 m H) as Hm.
  destruct (expandValue m values1), (expandValue m values2);
    try contradiction; [subst|]; now split.
Qed.

Lemma replaceFrom_same {E : Type} (r : regex)
    (repl1 repl2 : string -> string * list E) (s : string) :
  (forall m, fst (repl1 m) = fst (repl2 m)
             /\ List.length (snd (repl1 m)) = List.length (snd (repl2 m))) ->
  forall skip pos,
    fst (replaceFrom r repl1 skip pos s) = fst (replaceFrom r repl2 skip pos s)
    /\ List.length (snd (replaceFrom r repl1 skip pos s))
       = List.length (snd (replaceFrom r repl2 skip pos s)).
Proof.
  intros Hrepl. induction s as [|x s IH]; intros skip pos; [now split|].
  cbn [replaceFrom]. destruct skip as [|skip]; [|apply IH].
  destruct (matchAt r pos (String x s)) as [[e c]|].
  - destruct (Hrepl (take (e - pos) (String x s))) as [H1 H2].
    destruct (IH (e - pos - 1) (S pos)) as [I1 I2].
    destruct (repl1 (take (e - pos) (String x s))) as [o1 l1],
             (repl2 (take (e - pos) (String x s))) as [o2 l2],
             (replaceFrom r repl1 (e - pos - 1) (S pos) s) as [o1' l1'],
             (replaceFrom r repl2 (e - pos - 1) (S pos) s) as [o2' l2'].
    cbn [fst snd] in *. subst. split; [reflexivity|].
    rewrite !length_app. lia.
  - destruct (IH 0 (S pos)) as [I1 I2].
    destruct (replaceFrom r repl1 0 (S pos) s) as [o1' l1'],
             (replaceFrom r repl2 0 (S pos) s) as [o2' l2'].
    cbn [fst snd] in *. subst. now split.
Qed.

Lemma sliceLoop_same (f1 f2 : value -> value * list error) (l : list value) :
  Forall (fun x => fst (f1 x) = fst (f2 x)
                   /\ List.length (snd (f1 x)) = List.length (snd (f2 x))) l ->
  forall current2 errs1 errs2,
    List.length errs1 = List.length errs2 ->
    fst (sliceLoop f1 l current2 errs1) = fst (sliceLoop f2 l current2 errs2)
    /\ List.length (snd (sliceLoop f1 l current2 errs1))
       = List.length (snd (sliceLoop f2 l current2 errs2)).
Proof.
  induction 1 as [|x l [H1 H2] Hl IH]; intros current2 errs1 errs2 Herrs;
    cbn [sliceLoop]; [now split|].
  destruct (f1 x) as [v1 e1], (f2 x) as [v2 e2]. cbn [fst snd] in *. subst.
  apply IH. rewrite !length_app. lia.
Qed.

Lemma mapLoop_same (f1 f2 : value -> value * list error)
    (m : list (string * value)) :
  Forall (fun kv => fst (f1 (snd kv)) = fst (f2 (snd kv))
                    /\ List.length (snd (f1 (snd kv)))
                       = List.length (snd (f2 (snd kv)))) m ->
  forall current2 errs1 errs2,
    List.length errs1 = List.length errs2 ->
    fst (mapLoop f1 m current2 errs1) = fst (mapLoop f2 m current2 errs2)
    /\ List.length (snd (mapLoop f1 m current2 errs1))
       = List.length (snd (mapLoop f2 m current2 errs2)).
Proof.
  induction 1 as [|[k x] m [H1 H2] Hm IH]; intros current2 errs1 errs2 Herrs;
    cbn [mapLoop]; [now split|].
  cbn [snd] in H1, H2.
  destruct (f1 x) as [v1 e1], (f2 x) as [v2 e2]. cbn [fst snd] in *. subst.
  apply IH. rewrite !length_app. lia.
Qed.

Lemma recursion_same (values1 values2 : VariableLookup) :
  sameAnswers values1 values2 ->
  forall v,
    fst (recursion values1 v) = fst (recursion values2 v)
    /\ List.length (snd (recursion values1 v))
       = List.length (snd (recursion values2 v)).
Proof.
  intros H. induction v using value_ind'; try (now split).
  - cbn [recursion]. unfold expandString.
    destruct (FindStringSubmatch singleRegex s).
    + pose proof (expandValue_same values1 values2 s H) as Hs.
      destruct (expandValue s values1), (expandValue s values2);
        try contradiction; [subst|]; now split.
    + unfold ReplaceAllStringFunc.
      destruct (replaceFrom_same detectRegex (replaceMatch values1)
                  (replaceMatch values2) s
                  (fun m => replaceMatch_same values1 values2 m H) 0 0) as [H1 H2].
      destruct (replaceFrom detectRegex (replaceMatch values1) 0 0 s) as [o1 l1],
               (replaceFrom detectRegex (replaceMatch values2) 0 0 s) as [o2 l2].
      cbn [fst snd] in *. subst. now split.
  - cbn [recursion].
    destruct (sliceLoop_same _ _ l H0 [] [] [] eq_refl) as [H1 H2].
    destruct (sliceLoop (recursion values1) l [] []) as [o1 l1],
             (sliceLoop (recursion values2) l [] []) as [o2 l2].
    cbn [fst snd] in *. subst. now split.
  - cbn [recursion].
    destruct (mapLoop_same _ _ m H0 [] [] [] eq_refl) as [H1 H2].
    destruct (mapLoop (recursion values1) m [] []) as [o1 l1],
             (mapLoop (recursion values2) m [] []) as [o2 l2].
    cbn [fst snd] in *. subst. now split.
Qed.

Lemma Expand_same (values1 values2 : VariableLookup) (input : value) :
  sameAnswers values1 values2 ->
  fst (Expand input values1) = fst (Expand input values2)
  /\ (snd (Expand input values1) = None <-> snd (Expand input values2) = None).
Proof.
  intros H. destruct (recursion_same values1 values2 H input) as [H1 H2].
  rewrite !fst_Expand, !Expand_no_error. split; [exact H1|].
  rewrite <- !length_zero_iff_nil, H2. reflexivity.
Qed.

(** X13. The text of the errors a lookup function returns has no effect
    on the output: two lookup functions that for every key both return an
    error, or both return none and the same value, give the same output,
    and the error of [Expand] is nil for both or for neither. *)
Theorem messages_do_not_change_output (values1 values2 : VariableLookup)
    (input : value) :
  sameAnswers values1 values2 ->
  fst (Expand input values1) = fst (Expand input values2)
  /\ (snd (Expand input values1) = None <-> snd (Expand input values2) = None).
Proof. apply Expand_same. Qed.

(** X14. [ExpandMap] with a map and [ExpandEnv] in an environment that has
    the entries of that map return the same output, and a nil error on the
    same inputs. *)
Theorem ExpandMap_agrees_with_ExpandEnv (input : value)
    (values : list (string * string)) :
  fst (ExpandMap input values) = fst (ExpandEnv (mapIndex values) input)
  /\ (snd (ExpandMap input values) = None
      <-> snd (ExpandEnv (mapIndex values) input) = None).
Proof.
  unfold ExpandMap, ExpandEnv. apply Expand_same.
  intros key. cbn beta. now destruct (mapIndex values key).
Qed.

(** *** A name that is missing *)

(** X15. A placeholder without a fallback clause whose name is not in the
    map, or not in the environment, is kept with the text around it, and
    the error names the variable: "variable NAME is missing" from
    [ExpandMap], "environment variable NAME is missing" from [ExpandEnv],
    for a name without a percent sign. *)
Theorem missing_name_is_reported (nm fmt pre post : string) :
  validName nm = true -> (fmt = "" \/ isFormat fmt = true) ->
  without "%" nm = true ->
  without "$" pre = true -> without "\" pre = true -> without "$" post = true ->
  (forall values,
     mapIndex values nm = None ->
     ExpandMap (VString (pre ++ token nm fmt None ++ post)) values
     = (VString (pre ++ token nm fmt None ++ post),
        Some ("variable " ++ nm ++ " is missing")))
  /\ (forall LookupEnv,
        LookupEnv nm = None ->
        ExpandEnv LookupEnv (VString (pre ++ token nm fmt None ++ post))
        = (VString (pre ++ token nm fmt None ++ post),
           Some ("environment variable " ++ nm ++ " is missing"))).
Proof.
  intros Hnm Hfmt Hpct Hpre Hesc Hpost. split.
  - intros values Hmiss. unfold ExpandMap.
    rewrite (Expand_in_text_error _ nm fmt None pre post
               ("variable " ++ nm ++ " is missing")); try assumption; try reflexivity.
    + rewrite Errorf0_plain; [reflexivity|].
      now rewrite !without_app, Hpct.
    + rewrite expandValue_token by (assumption || reflexivity).
      cbn beta. now rewrite Hmiss.
  - intros LookupEnv Hmiss. unfold ExpandEnv.
    rewrite (Expand_in_text_error _ nm fmt None pre post
               ("environment variable " ++ nm ++ " is missing"));
      try assumption; try reflexivity.
    + rewrite Errorf0_plain; [reflexivity|].
      now rewrite !without_app, Hpct.
    + rewrite expandValue_token by (assumption || reflexivity).
      cbn beta. now rewrite Hmiss.
Qed.

(** *** The messages of a traversal *)

Lemma coerce_errors (fmt t : string) (e : error) :
  fmt = "" \/ isFormat fmt = true ->
  coerce fmt t = inr e ->
  e = t ++ " is not a valid number" \/ e = t ++ " is not a valid boolean".
Proof.
  intros Hfmt. unfold coerce.
  destruct (fmt =? "") eqn:H0; [discriminate|].
  destruct (fmt =? "string") eqn:H1; [discriminate|].
  destruct (fmt =? "number") eqn:H2.
  - destruct (Strconv.Atoi t); [discriminate|].
    destruct (ParseFloat t); [discriminate|]. intros [= <-]. now left.
  - destruct (fmt =? "boolean") eqn:H3.
    + repeat match goal with
             | |- context [if ?b then _ else _] => destruct b; [discriminate|]
             end.
      intros [= <-]. now right.
    + exfalso. destruct Hfmt as [-> | Hfmt]; [discriminate|].
      unfold isFormat in Hfmt. rewrite H1, H2, H3 in Hfmt. discriminate.
Qed.

Lemma expandValue_errors (values : VariableLookup) (str : string) (e : error) :
  expandValue str values = inr e ->
  e = couldNotParse str
  \/ (exists key v, values key = (v, Some e))
  \/ (exists t, e = t ++ " is not a valid number")
  \/ (exists t, e = t ++ " is not a valid boolean").
Proof.
  unfold expandValue. destruct (parseValue str) as [p|] eqn:Hp.
  - pose proof (parseValue_format str p Hp) as Hfmt.
    destruct (values (name p)) as [v [err|]] eqn:Hv.
    + destruct (negb (hasFallback p)).
      * intros [= <-]. right. left. now exists (name p), v.
      * intros H. right. right.
        destruct (coerce_errors _ _ _ Hfmt H) as [-> | ->];
          [left | right]; now eexists.
    + destruct v as [v|]; [|discriminate].
      intros H. right. right.
      destruct (coerce_errors _ _ _ Hfmt H) as [-> | ->];
        [left | right]; now eexists.
  - intros [= <-]. now left.
Qed.

Lemma replaceFrom_errors {E : Type} (P : E -> Prop) (r : regex)
    (repl : string -> string * list E) (s : string) :
  (forall m, Forall P (snd (repl m))) ->
  forall skip pos, Forall P (snd (replaceFrom r repl skip pos s)).
Proof.
  intros Hrepl. induction s as [|x s IH]; intros skip pos; [constructor|].
  cbn [replaceFrom]. destruct skip as [|skip]; [|apply IH].
  destruct (matchAt r pos (String x s)) as [[e c]|].
  - pose proof (Hrepl (take (e - pos) (String x s))) as H1.
    pose proof (IH (e - pos - 1) (S pos)) as H2.
    destruct (repl (take (e - pos) (String x s))) as [o l],
             (replaceFrom r repl (e - pos - 1) (S pos) s) as [o' l'].
    cbn [snd] in *. apply Forall_app. now split.
  - pose proof (IH 0 (S pos)) as H2.
    destruct (replaceFrom r repl 0 (S pos) s) as [o' l']. exact H2.
Qed.

Lemma sliceLoop_errors (P : error -> Prop) (f : value -> value * list error)
    (l : list value) :
  Forall (fun x => Forall P (snd (f x))) l ->
  forall current2 errs,
    Forall P errs -> Forall P (snd (sliceLoop f l current2 errs)).
Proof.
  induction 1 as [|x l Hx Hl IH]; intros current2 errs Herrs; cbn [sliceLoop];
    [exact Herrs|].
  destruct (f x) as [v err]. cbn [snd] in Hx.
  apply IH. apply Forall_app. now split.
Qed.

Lemma mapLoop_Forall (P : error -> Prop) (f : value -> value * list error)
    (m : list (string * value)) :
  Forall (fun kv => Forall P (snd (f (snd kv)))) m ->
  forall current2 errs,
    Forall P errs -> Forall P (snd (mapLoop f m current2 errs)).
Proof.
  induction 1 as [|[k x] m Hx Hm IH]; intros current2 errs Herrs; cbn [mapLoop];
    [exact Herrs|].
  cbn [snd] in Hx. destruct (f x) as [v err]. cbn [snd] in Hx.
  apply IH. apply Forall_app. now split.
Qed.

(** X16. Every message a traversal records is of one of four kinds: "could
    not parse" followed by a placeholder text, an error the lookup function
    returned, "... is not a valid number", or "... is not a valid
    boolean". *)
Theorem messages_of_a_traversal (values : VariableLookup) (input : value) :
  Forall (fun e =>
            (exists str, e = couldNotParse str)
            \/ (exists key v, values key = (v, Some e))
            \/ (exists t, e = t ++ " is not a valid number")
            \/ (exists t, e = t ++ " is not a valid boolean"))
         (snd (recursion values input)).
Proof.
  induction input using value_ind'; try constructor.
  - cbn [recursion]. unfold expandString.
    destruct (FindStringSubmatch singleRegex s).
    + destruct (expandValue s values) as [v|e] eqn:Hs; [constructor|].
      constructor; [|constructor].
      destruct (expandValue_errors _ _ _ Hs) as [-> | H]; [left; now eexists | now right].
    + unfold ReplaceAllStringFunc.
      match goal with
      | |- Forall ?P _ =>
          pose proof (replaceFrom_errors P detectRegex (replaceMatch values) s) as H
      end.
      destruct (replaceFrom detectRegex (replaceMatch values) 0 0 s) as [o l] eqn:Hr.
      specialize (H ltac:(
        intros m; unfold replaceMatch;
        destruct (Strings.HasPrefix m "\"); [constructor|];
        destruct (expandValue m values) as [v|e] eqn:Hm; [constructor|];
        constructor; [|constructor];
        destruct (expandValue_errors _ _ _ Hm) as [-> | H'];
          [left; now eexists | now right]) 0 0).
      now rewrite Hr in H.
  - cbn [recursion].
    match goal with
    | |- Forall ?P _ =>
        pose proof (sliceLoop_errors P (recursion values) l H [] [] (Forall_nil _)) as H'
    end.
    now destruct (sliceLoop (recursion values) l [] []).
  - cbn [recursion].
    match goal with
    | |- Forall ?P _ =>
        pose proof (mapLoop_Forall P (recursion values) m H [] [] (Forall_nil _)) as H'
    end.
    now destruct (mapLoop (recursion values) m [] []).
Qed.

(** *** What the pattern of [expandValue] matches *)

Lemma parseValue_inv (str : string) (p : placeholder) :
  parseValue str = Some p ->
  str = token (name p) (format p)
          (if hasFallback p then Some (fallback p) else None)
  /\ name p <> "" /\ without ":" (name p) = true
  /\ (format p = "" \/ isFormat (format p) = true)
  /\ without newline (fallback p) = true
  /\ (hasFallback p = false -> fallback p = "").
Proof.
  unfold parseValue, valueRegex. rewrite find_anchored. fold valueRegex.
  destruct (matchAt valueRegex 0 str) as [[e caps]|] eqn:Hm; [|discriminate].
  intros [= <-]. cbn [name format hasFallback fallback].
  unfold matchAt, valueRegex in Hm. rewrite run_Cat in Hm.
  remember (run (Cat (Lit "${") (Cat (Group "name" (Plus (CExcept ":"))) valueTail))
              accept) as K eqn:HK.
  cbn [run Nat.eqb] in Hm. subst K. rewrite run_Cat in Hm.
  remember (run (Cat (Group "name" (Plus (CExcept ":"))) valueTail) accept)
    as K eqn:HK.
  cbn [run] in Hm. apply lit_inv in Hm as (s1 & -> & Hm).
  subst K. rewrite run_Cat in Hm.
  remember (run valueTail accept) as K eqn:HK.
  cbn [run] in Hm. unfold plus in Hm.
  destruct s1 as [|x s1]; [discriminate|].
  destruct (cmatch (CExcept ":") x) eqn:Hx; [|discriminate].
  apply star_inv in Hm as (a & b & -> & Ha & Hm).
  subst K. apply valueTail_inv in Hm as (fmt & fb & Hb & Hfmt & Hfb & ->).
  change (String x (a ++ b)) with (String x a ++ b).
  rewrite (take_prefix _ (String x a) b) by (cbn [String.length]; lia).
  subst b.
  assert (Hname : without ":" (String x a) = true).
  { unfold without. cbn [allBytes]. now rewrite Hx, Ha. }
  unfold token.
  destruct Hfmt as [-> | Hfmt].
  - destruct fb as [f|]; cbn [String.eqb app capture negb append];
      repeat split; try assumption; try discriminate; now left.
  - unfold isFormat in Hfmt.
    apply orb_prop in Hfmt as [Hfmt | Hfmt]; [apply orb_prop in Hfmt as [Hfmt | Hfmt]|];
      apply String.eqb_eq in Hfmt; subst fmt;
      destruct fb as [f|];
      cbn [String.eqb Ascii.eqb Bool.eqb app capture negb append];
      repeat split; try assumption; try discriminate; now right.
Qed.

(** X17. The pattern of [expandValue] takes a placeholder text apart into
    the parts it is put together from, and takes nothing else: a text is
    matched with a name, a format and a fallback clause exactly when it is
    the placeholder text of these, the name is not empty and has no colon,
    the format is absent or one of [number], [boolean], [string], and the
    fallback text has no line break. *)
Theorem placeholder_round_trip (str : string) (p : placeholder) :
  parseValue str = Some p
  <-> (str = token (name p) (format p)
               (if hasFallback p then Some (fallback p) else None)
       /\ name p <> "" /\ without ":" (name p) = true
       /\ (format p = "" \/ isFormat (format p) = true)
       /\ without newline (fallback p) = true
       /\ (hasFallback p = false -> fallback p = "")).
Proof.
  split; [apply parseValue_inv|].
  intros (-> & Hne & Hnm & Hfmt & Hfb & Hempty).
  rewrite parseValue_token; try assumption.
  - destruct p as [nm fmt [|] f]; cbn [name format hasFallback fallback] in *;
      [reflexivity|]. now rewrite Hempty.
  - now destruct (hasFallback p).
Qed.

(** *** The names [Expand] looks up *)

Lemma prefix_without (x : ascii) (a r b : string) :
  a ++ r = b ++ String x "" -> r <> "" -> without x b = true -> without x a = true.
Proof.
  revert b. induction a as [|y a IH]; intros b Heq Hr Hb; [reflexivity|].
  destruct b as [|z b]; cbn [append] in Heq.
  - injection Heq as _ Heq. destruct a; [cbn in Heq; congruence | discriminate].
  - injection Heq as -> Heq. unfold without in *. cbn [allBytes] in *.
    apply andb_prop in Hb as [Hz Hb]. rewrite Hz. cbn [andb].
    now apply (IH b).
Qed.

Lemma append_inj_l (a b c : string) : a ++ b = a ++ c -> b = c.
Proof. induction a as [|x a IH]; cbn [append]; [easy|]. intros [= H]. auto. Qed.

Lemma parseValue_valid_name (body : string) (p : placeholder) :
  without "}" body = true ->
  parseValue ("${" ++ body ++ "}") = Some p ->
  validName (name p) = true.
Proof.
  intros Hbody Hp.
  destruct (parseValue_inv _ _ Hp) as (Hstr & Hne & Hnm & _).
  unfold validName. rewrite Hnm.
  destruct (String.eqb_spec (name p) "") as [? | _]; [contradiction|].
  cbn [negb andb]. unfold token in Hstr.
  apply (append_inj_l "${") in Hstr. symmetry in Hstr.
  apply (prefix_without _ _ _ _ Hstr); [|exact Hbody].
  destruct (if format p =? "" then "" else ":" ++ format p); [|discriminate].
  destruct (if hasFallback p then Some (fallback p) else None); discriminate.
Qed.

Lemma expandValue_ext_valid (values1 values2 : VariableLookup) (body : string) :
  (forall key, validName key = true -> values1 key = values2 key) ->
  without "}" body = true ->
  expandValue ("${" ++ body ++ "}") values1
  = expandValue ("${" ++ body ++ "}") values2.
Proof.
  intros H Hbody. unfold expandValue.
  destruct (parseValue ("${" ++ body ++ "}")) as [p|] eqn:Hp; [|reflexivity].
  now rewrite (H _ (parseValue_valid_name body p Hbody Hp)).
Qed.

Lemma detect_inv (pos : nat) (s : string) (e : nat) (c : captures) :
  matchAt detectRegex pos s = Some (e, c) ->
  exists body,
    without "}" body = true
    /\ (take (e - pos) s = "${" ++ body ++ "}"
        \/ take (e - pos) s = "\${" ++ body ++ "}").
Proof.
  unfold matchAt, detectRegex. rewrite run_Cat.
  remember (run (Cat (Lit "${") (Cat (Plus (CExcept "}")) (Lit "}"))) accept)
    as K eqn:HK.
  assert (HKinv : forall p t,
            K p t [] = Some (e, c) ->
            exists body rest,
              without "}" body = true
              /\ t = ("${" ++ body ++ "}") ++ rest
              /\ e = p + String.length ("${" ++ body ++ "}")).
  { intros p t Ht. subst K. rewrite run_Cat in Ht. cbn [run] in Ht.
    apply lit_inv in Ht as (s1 & -> & Ht). unfold plus in Ht.
    destruct s1 as [|x s1]; [discriminate|].
    destruct (cmatch (CExcept "}") x) eqn:Hx; [|discriminate].
    apply star_inv in Ht as (a & b & -> & Ha & Ht).
    apply lit_inv in Ht as (rest & -> & Ht).
    unfold accept in Ht. injection Ht as <- _.
    exists (String x a), rest. split; [|split].
    - unfold without. cbn [allBytes]. now rewrite Hx, Ha.
    - cbn [append]. now rewrite !append_assoc.
    - cbn [String.length append]. rewrite length_append. cbn [String.length]. lia. }
  cbn [run]. destruct (lit "\" K pos s []) as [m|] eqn:H1.
  - intros [= ->]. apply lit_inv in H1 as (s1 & -> & H1).
    apply HKinv in H1 as (body & rest & Hbody & -> & ->).
    exists body. split; [exact Hbody|]. right.
    apply (take_prefix _ ("\${" ++ body ++ "}") rest).
    cbn [String.length append]. lia.
  - intros H. apply HKinv in H as (body & rest & Hbody & -> & ->).
    exists body. split; [exact Hbody|]. left.
    apply take_prefix. lia.
Qed.

Lemma replaceFrom_ext_on {E : Type} (r : regex)
    (repl1 repl2 : string -> string * list E) (s : string) :
  (forall pos t e c, matchAt r pos t = Some (e, c) ->
     repl1 (take (e - pos) t) = repl2 (take (e - pos) t)) ->
  forall skip pos, replaceFrom r repl1 skip pos s = replaceFrom r repl2 skip pos s.
Proof.
  intros Hrepl. induction s as [|x s IH]; intros skip pos; [reflexivity|].
  cbn [replaceFrom]. destruct skip as [|skip]; [|apply IH].
  destruct (matchAt r pos (String x s)) as [[e c]|] eqn:Hm.
  - now rewrite (Hrepl _ _ _ _ Hm), IH.
  - now rewrite IH.
Qed.

Lemma recursion_ext_valid (values1 values2 : VariableLookup) :
  (forall key, validName key = true -> values1 key = values2 key) ->
  forall v, recursion values1 v = recursion values2 v.
Proof.
  intros H. induction v using value_ind'; try reflexivity.
  - cbn [recursion]. unfold expandString.
    destruct (FindStringSubmatch singleRegex s) as [c|] eqn:Hs.
    + destruct (single_inv s) as (body & -> & _ & Hbody); [congruence|].
      now rewrite (expandValue_ext_valid values1 values2 body H Hbody).
    + unfold ReplaceAllStringFunc.
      rewrite (replaceFrom_ext_on detectRegex (replaceMatch values1)
                 (replaceMatch values2)); [reflexivity|].
      intros pos t e c Hm.
      destruct (detect_inv _ _ _ _ Hm) as (body & Hbody & [-> | ->]).
      * rewrite !replaceMatch_placeholder.
        now rewrite (expandValue_ext_valid values1 values2 body H Hbody).
      * change ("\${" ++ body ++ "}") with ("\" ++ ("${" ++ body ++ "}")).
        now rewrite !replaceMatch_escaped.
  - cbn [recursion]. now rewrite (sliceLoop_ext _ _ l H0).
  - cbn [recursion]. now rewrite (mapLoop_ext _ _ m H0).
Qed.

(** X18. [Expand] asks the lookup function only for names that are not
    empty and have neither a colon nor a closing brace: two lookup
    functions that agree on these names give the same output and the same
    error. *)
Theorem lookup_only_of_valid_names (values1 values2 : VariableLookup)
    (input : value) :
  (forall key, validName key = true -> values1 key = values2 key) ->
  Expand input values1 = Expand input values2.
Proof.
  intros H. unfold Expand. now rewrite (recursion_ext_valid values1 values2 H).
Qed.

(** *** The first file *)

Lemma sameGroups_refl (c : captures) : sameGroups c c.
Proof. now repeat split. Qed.

Lemma sameGroups_cons (n v : string) (c1 c2 : captures) :
  sameGroups c1 c2 -> sameGroups ((n, v) :: c1) ((n, v) :: c2).
Proof.
  intros (H1 & H2 & H3). unfold sameGroups. cbn [capture].
  rewrite H1, H2, H3. now repeat split.
Qed.

Lemma sameGroups_hasFormat (v : string) (c1 c2 : captures) :
  sameGroups c1 c2 -> sameGroups (("hasFormat", v) :: c1) c2.
Proof. intros (H1 & H2 & H3). now repeat split. Qed.

Lemma sameGroups_hasFallback (v : string) (c1 c2 : captures) :
  sameGroups c1 c2 -> sameGroups (("hasFallback", v) :: c1) c2.
Proof. intros (H1 & H2 & H3). now repeat split. Qed.

Lemma sameCont_accept : sameCont accept accept.
Proof. intros pos s c1 c2 H. now split. Qed.

Lemma lit_same (l : string) (k1 k2 : cont) :
  sameCont k1 k2 -> sameCont (lit l k1) (lit l k2).
Proof.
  intros Hk. induction l as [|a l IH]; intros pos s c1 c2 H; cbn [lit].
  - now apply Hk.
  - destruct s as [|b s]; [exact I|].
    destruct (Ascii.eqb a b); [now apply IH | exact I].
Qed.

Lemma star_same (cl : cclass) (k1 k2 : cont) :
  sameCont k1 k2 -> sameCont (star cl k1) (star cl k2).
Proof.
  intros Hk pos s. revert pos.
  induction s as [|a s IH]; intros pos c1 c2 H; cbn [star].
  - now apply Hk.
  - destruct (cmatch cl a); [|now apply Hk].
    pose proof (IH (S pos) c1 c2 H) as Hs.
    destruct (star cl k1 (S pos) s c1) as [[e1 d1]|],
             (star cl k2 (S pos) s c2) as [[e2 d2]|];
      try contradiction; [exact Hs | now apply Hk].
Qed.

Lemma sameRegex_refl (r : regex) : sameRegex r r.
Proof.
  induction r as [ | | l | cl | cl | r1 IH1 r2 IH2 | r1 IH1 r2 IH2 | r IH | n r IH];
    intros k1 k2 Hk pos s c1 c2 H; cbn [run].
  - destruct (Nat.eqb pos 0); [now apply Hk | exact I].
  - destruct s; [now apply Hk | exact I].
  - now apply lit_same.
  - now apply star_same.
  - unfold plus. destruct s as [|a s]; [exact I|].
    destruct (cmatch cl a); [now apply star_same | exact I].
  - apply IH1; [now apply IH2 | exact H].
  - pose proof (IH1 k1 k2 Hk pos s c1 c2 H) as H1.
    destruct (run r1 k1 pos s c1) as [[e1 d1]|], (run r1 k2 pos s c2) as [[e2 d2]|];
      try contradiction; [exact H1 | now apply IH2].
  - pose proof (IH k1 k2 Hk pos s c1 c2 H) as H1.
    destruct (run r k1 pos s c1) as [[e1 d1]|], (run r k2 pos s c2) as [[e2 d2]|];
      try contradiction; [exact H1 | now apply Hk].
  - apply IH; [|exact H]. intros pos' s' d1 d2 Hd.
    apply Hk. now apply sameGroups_cons.
Qed.

Lemma sameRegex_Cat (r1 r2 r1' r2' : regex) :
  sameRegex r1 r1' -> sameRegex r2 r2' -> sameRegex (Cat r1 r2) (Cat r1' r2').
Proof. intros H1 H2 k1 k2 Hk. cbn [run]. apply H1. now apply H2. Qed.

Lemma sameRegex_Opt (r r' : regex) :
  sameRegex r r' -> sameRegex (Opt r) (Opt r').
Proof.
  intros Hr k1 k2 Hk pos s c1 c2 H. cbn [run].
  pose proof (Hr k1 k2 Hk pos s c1 c2 H) as H1.
  destruct (run r k1 pos s c1) as [[e1 d1]|], (run r' k2 pos s c2) as [[e2 d2]|];
    try contradiction; [exact H1 | now apply Hk].
Qed.

Lemma sameRegex_formatGroup :
  sameRegex formatGroup
    (Cat (Lit ":")
       (Group "format" (Alt (Lit "number") (Alt (Lit "boolean") (Lit "string"))))).
Proof.
  intros k1 k2 Hk pos s c1 c2 H. unfold formatGroup.
  change (run (Group "hasFormat" ?r) k1 pos s c1)
    with (run r (fun pos' s' c' => k1 pos' s' (("hasFormat", take (pos' - pos) s) :: c'))
            pos s c1).
  apply sameRegex_refl; [|exact H].
  intros pos' s' d1 d2 Hd. apply Hk. now apply sameGroups_hasFormat.
Qed.

Lemma sameRegex_fallbackGroup :
  sameRegex fallbackGroup (Cat (Lit ":-") (Group "fallback" (Star CDot))).
Proof.
  intros k1 k2 Hk pos s c1 c2 H. unfold fallbackGroup.
  change (run (Group "hasFallback" ?r) k1 pos s c1)
    with (run r (fun pos' s' c' => k1 pos' s' (("hasFallback", take (pos' - pos) s) :: c'))
            pos s c1).
  apply sameRegex_refl; [|exact H].
  intros pos' s' d1 d2 Hd. apply Hk. now apply sameGroups_hasFallback.
Qed.

Lemma sameRegex_value : sameRegex valueRegex valueRegex_v1.
Proof.
  unfold valueRegex, valueRegex_v1, valueTail.
  repeat (apply sameRegex_Cat; [try apply sameRegex_refl|]).
  - apply sameRegex_Opt, sameRegex_formatGroup.
  - apply sameRegex_Opt, sameRegex_fallbackGroup.
  - apply sameRegex_refl.
Qed.

Lemma find_value_v1 (str : string) :
  match FindStringSubmatch valueRegex str, FindStringSubmatch valueRegex_v1 str with
  | Some c1, Some c2 => sameGroups c1 c2
  | None, None => True
  | _, _ => False
  end.
Proof.
  assert (E1 : FindStringSubmatch valueRegex str
               = match matchAt valueRegex 0 str with
                 | Some (_, c) => Some c
                 | None => None
                 end) by apply find_anchored.
  assert (E2 : FindStringSubmatch valueRegex_v1 str
               = match matchAt valueRegex_v1 0 str with
                 | Some (_, c) => Some c
                 | None => None
                 end) by apply find_anchored.
  rewrite E1, E2. unfold matchAt.
  pose proof (sameRegex_value accept accept sameCont_accept 0 str [] []
                (sameGroups_refl [])) as H.
  destruct (run valueRegex accept 0 str []) as [[e1 c1]|],
           (run valueRegex_v1 accept 0 str []) as [[e2 c2]|];
    try contradiction; [apply H | exact I].
Qed.

Lemma expandEnvValue_v1_parse (LookupEnv : string -> option string) (str : string) :
  expandEnvValue_v1 LookupEnv str
  = match parseValue str with
    | None => inr (couldNotParse str)
    | Some p =>
        match LookupEnv (name p) with
        | None =>
            if fallback p =? ""
            then inr ("environment variable " ++ name p ++ " is missing")
            else coerce_v1 (format p) (fallback p)
        | Some value => coerce_v1 (format p) value
        end
    end.
Proof.
  unfold expandEnvValue_v1, parseValue.
  pose proof (find_value_v1 str) as H.
  destruct (FindStringSubmatch valueRegex str) as [c1|],
           (FindStringSubmatch valueRegex_v1 str) as [c2|];
    try contradiction; [|reflexivity].
  destruct H as (H1 & H2 & H3). cbn [name format fallback].
  now rewrite H1, H2, H3.
Qed.

Lemma coerce_v1_coerce (fmt t : string) :
  fmt <> "number" -> coerce_v1 fmt t = coerce fmt t.
Proof.
  intros Hfmt. unfold coerce_v1, coerce.
  destruct (fmt =? ""); [reflexivity|].
  destruct (fmt =? "string"); [reflexivity|].
  destruct (String.eqb_spec fmt "number"); [contradiction | reflexivity].
Qed.

(** X19. In the first file an empty fallback clause is no fallback: for a
    name that is not in the environment, a placeholder with the clause
    [:-] and nothing after it gives the error "environment variable NAME
    is missing", as a placeholder without the clause does, while a clause
    with a text gives that text, read in the format. *)
Theorem empty_fallback_is_missing_v1 (LookupEnv : string -> option string)
    (nm fmt : string) :
  nm <> "" -> without ":" nm = true -> (fmt = "" \/ isFormat fmt = true) ->
  LookupEnv nm = None ->
  expandEnvValue_v1 LookupEnv (token nm fmt (Some ""))
  = inr ("environment variable " ++ nm ++ " is missing")
  /\ expandEnvValue_v1 LookupEnv (token nm fmt None)
     = inr ("environment variable " ++ nm ++ " is missing")
  /\ (forall f, f <> "" -> without newline f = true ->
        expandEnvValue_v1 LookupEnv (token nm fmt (Some f)) = coerce_v1 fmt f).
Proof.
  intros Hne Hnm Hfmt Hmiss. repeat split.
  - rewrite expandEnvValue_v1_parse, parseValue_token by (assumption || reflexivity).
    cbn [name format fallback]. now rewrite Hmiss.
  - rewrite expandEnvValue_v1_parse, parseValue_token by (assumption || exact I).
    cbn [name format fallback]. now rewrite Hmiss.
  - intros f Hf Hline.
    rewrite expandEnvValue_v1_parse, parseValue_token by assumption.
    cbn [name format fallback]. rewrite Hmiss.
    destruct (String.eqb_spec f ""); [contradiction | reflexivity].
Qed.

(** X20. On a text whose placeholder has no format [number] and no empty
    fallback clause, and on a text that is no placeholder, [expandEnvValue]
    of the first file returns what [expandValue] of the last file returns
    for the lookup [ExpandEnv] makes of the environment. *)
Theorem expandEnvValue_v1_agrees (LookupEnv : string -> option string)
    (str : string) :
  (forall p, parseValue str = Some p ->
     format p <> "number" /\ (hasFallback p = true -> fallback p <> "")) ->
  expandEnvValue_v1 LookupEnv str = expandValue str (envLookup LookupEnv).
Proof.
  intros H. rewrite expandEnvValue_v1_parse. unfold expandValue, envLookup.
  destruct (parseValue str) as [p|] eqn:Hp; [|reflexivity].
  destruct (H p eq_refl) as [Hfmt Hfb].
  destruct (parseValue_inv str p Hp) as (_ & _ & _ & _ & _ & Hempty).
  destruct (LookupEnv (name p)) as [v|].
  - now apply coerce_v1_coerce.
  - destruct (hasFallback p); cbn [negb].
    + destruct (String.eqb_spec (fallback p) "") as [He | _];
        [now destruct (Hfb eq_refl) | now apply coerce_v1_coerce].
    + now rewrite (Hempty eq_refl).
Qed.

End Expandenv.

Arguments VNil {other}.
Arguments VString {other} s.
Arguments VInt {other} n.
Arguments VFloat {other} f.
Arguments VBool {other} b.
Arguments VSlice {other} l.
Arguments VMap {other} m.
Arguments VOther {other} o.

(** ** The claims at concrete inputs

    [float64] texts are read and printed by the two sample tables, and
    [map[int]string] is the dynamic type [Expand] does not look for. *)

Local Abbreviation sampleExpand :=
  (Expand sampleOther sampleParseFloat sampleFormatFloat).
Local Abbreviation sampleRecursion :=
  (recursion sampleOther sampleParseFloat sampleFormatFloat).

Lemma whole_string_keeps_type_witness :
  sampleExpand (VString "${N:number}") sampleLookup = (VInt 42, None)
  /\ sampleExpand (VString "${F:number:-0}") sampleLookup = (VFloat 42.5%float, None)
  /\ sampleExpand (VString "${X:number}") sampleLookup
     = (VString "${X:number}", Some "abc is not a valid number")
  /\ sampleExpand (VString "${M:number:-7}") failingLookup = (VInt 7, None)
  /\ sampleExpand (VString "${X:-}") sampleLookup = (VString "abc", None)
  /\ sampleExpand (VString "${MISSING}") (fun _ => (None, Some "disk is at 95%."))
     = (VString "${MISSING}", Some "disk is at 95%!.(MISSING)").
Proof.
  destruct (whole_string_keeps_type sampleOther sampleParseFloat sampleFormatFloat
              sampleLookup)
    as (Hwhole & Hnumber & H42 & H425 & _).
  destruct (whole_string_keeps_type sampleOther sampleParseFloat sampleFormatFloat
              failingLookup)
    as (_ & Hfallback & _).
  destruct (whole_string_keeps_type sampleOther sampleParseFloat sampleFormatFloat
              (fun _ => (None, Some "disk is at 95%.")))
    as (Hdisk & _).
  refine (conj (H42 "N" None eq_refl eq_refl (or_introl eq_refl))
         (conj (H425 "F" (Some "0") 42.5%float eq_refl eq_refl
                  (or_introl eq_refl) eq_refl)
         (conj (Hnumber "X" None "abc" eq_refl eq_refl (or_introl eq_refl))
         (conj (Hfallback "M" (Some "7") "7" eq_refl eq_refl
                  (or_intror (ex_intro _ None (ex_intro _ "no M" (conj eq_refl eq_refl)))))
         (conj (Hwhole "X:-" _ eq_refl)
               (Hdisk "MISSING" _ eq_refl)))))); discriminate.
Defined.

Lemma escaped_placeholder_kept_witness :
  sampleExpand (VString "a \\${X:boolean} b") (fun _ => (None, Some "no"))
  = (VString "a \${X:boolean} b", None).
Proof.
  exact (proj1 (escaped_placeholder_kept sampleOther sampleParseFloat sampleFormatFloat
                  (fun _ => (None, Some "no")))
           "a \" "X:boolean" " b" ltac:(discriminate) eq_refl eq_refl eq_refl).
Defined.

Lemma unknown_format_counterexample :
  sampleRecursion (fun _ => (Some "1", None)) (VString "${A:int}")
  = (VString "${A:int}", ["could not parse ${A:int}"])
  /\ existsb (String.eqb (unsupportedFormat "int")) ["could not parse ${A:int}"] = false
  /\ sampleExpand (VString "${A:int}") (fun _ => (Some "1", None))
     = (VString "${A:int}", Some "could not parse ${A:int}").
Proof. split; [reflexivity | split; reflexivity]. Qed.

Lemma unknown_format_not_parsed_witness :
  sampleExpand (VString "${A:int:-7}") (fun _ => (Some "1", None))
  = (VString "${A:int:-7}", Some "could not parse ${A:int:-7}").
Proof.
  exact (proj2 (proj2 (proj2
           (unknown_format_not_parsed sampleOther sampleParseFloat sampleFormatFloat
              (fun _ => (Some "1", None)) "A" "int:-7"
              eq_refl eq_refl eq_refl eq_refl eq_refl)))).
Defined.

Lemma missing_without_fallback_counterexample :
  sampleExpand (VString "${MISSING}") (fun _ => (None, Some "not found"))
  = (VString "${MISSING}", Some "not found")
  /\ Strings.Contains "not found" "MISSING" = false.
Proof. split; reflexivity. Qed.

Lemma missing_without_fallback_witness :
  sampleExpand (VString "${MISSING}") (fun _ => (None, Some "not found"))
  = (VString "${MISSING}", Some "not found")
  /\ sampleExpand (VString "${MISSING}") (fun _ => (None, Some "disk is at 95%."))
     = (VString "${MISSING}", Some "disk is at 95%!.(MISSING)")
  /\ ExpandMap sampleOther sampleParseFloat sampleFormatFloat
       (VString "${MISSING}") [("ENV_A", "a")]
     = (VString "${MISSING}", Some "variable MISSING is missing")
  /\ ExpandEnv sampleOther sampleParseFloat sampleFormatFloat
       (fun _ => None) (VString "${MISSING}")
     = (VString "${MISSING}", Some "environment variable MISSING is missing").
Proof.
  destruct (missing_without_fallback sampleOther sampleParseFloat sampleFormatFloat)
    as (Hany & _ & Hmap & Henv & _).
  exact (conj (Hany (fun _ => (None, Some "not found")) None "not found" eq_refl)
        (conj (Hany (fun _ => (None, Some "disk is at 95%.")) None "disk is at 95%."
                 eq_refl)
        (conj (Hmap [("ENV_A", "a")] eq_refl)
              (Henv (fun _ => None) eq_refl)))).
Defined.

Lemma fallback_for_missing_counterexample :
  failingLookup "MISSING" = (None, Some "no MISSING")
  /\ sampleExpand (VString ("${MISSING:-a" ++ String newline "b}")) failingLookup
     = (VString ("${MISSING:-a" ++ String newline "b}"),
        Some ("could not parse ${MISSING:-a" ++ String newline "b}"))
  /\ VString ("${MISSING:-a" ++ String newline "b}")
     <> @VString sampleOther ("a" ++ String newline "b").
Proof. split; [reflexivity | split; [reflexivity | discriminate]]. Qed.

Lemma fallback_for_missing_witness :
  sampleExpand (VString "${MISSING:-def}") failingLookup = (VString "def", None)
  /\ sampleExpand (VString "${MISSING:-}") failingLookup = (VString "", None)
  /\ sampleExpand (VString "|${MISSING:-}|") failingLookup = (VString "||", None)
  /\ sampleExpand (VString "${MISSING}") failingLookup
     = (VString "${MISSING}", Some "no MISSING")
  /\ sampleExpand (VString "${MISSING}") (fun _ => (None, Some "disk is at 95%."))
     = (VString "${MISSING}", Some "disk is at 95%!.(MISSING)")
  /\ sampleExpand (VString ("${MISSING:number:-4" ++ String newline "2}")) failingLookup
     = (VString ("${MISSING:number:-4" ++ String newline "2}"),
        Some ("could not parse ${MISSING:number:-4" ++ String newline "2}")).
Proof.
  destruct (fallback_for_missing sampleOther sampleParseFloat sampleFormatFloat
              failingLookup "MISSING" "def" None "no MISSING" eq_refl eq_refl eq_refl)
    as (Hdef & _ & _ & Hnone & Hbreak).
  destruct (fallback_for_missing sampleOther sampleParseFloat sampleFormatFloat
              failingLookup "MISSING" "" None "no MISSING" eq_refl eq_refl eq_refl)
    as (Hempty & Htext & _ & _).
  destruct (fallback_for_missing sampleOther sampleParseFloat sampleFormatFloat
              (fun _ => (None, Some "disk is at 95%.")) "MISSING" "" None
              "disk is at 95%." eq_refl eq_refl eq_refl)
    as (_ & _ & _ & Hdisk & _).
  exact (conj Hdef (conj Hempty (conj (Htext "|" "|" eq_refl eq_refl eq_refl)
        (conj Hnone (conj Hdisk
           (proj2 (Hbreak "number" ("4" ++ String newline "2")
                     (or_intror eq_refl) eq_refl eq_refl))))))).
Defined.

Lemma absent_value_keeps_text_witness :
  sampleExpand (VString "${SKIP:number:-1}") (fun _ => (None, None))
  = (VString "${SKIP:number:-1}", None)
  /\ sampleExpand (VString "a ${SKIP:number:-1} b") (fun _ => (None, None))
     = (VString "a ${SKIP:number:-1} b", None).
Proof.
  destruct (absent_value_keeps_text sampleOther sampleParseFloat sampleFormatFloat
              (fun _ => (None, None)) "SKIP" "number" (Some "1")
              eq_refl (or_intror eq_refl) eq_refl eq_refl)
    as (_ & Hwhole & Htext).
  split; [exact Hwhole | exact (Htext "a " " b" eq_refl eq_refl eq_refl)].
Defined.

Lemma boolean_literals_witness :
  sampleExpand (VString "${B:boolean}") (fun _ => (Some "yes", None))
  = (VBool true, None)
  /\ sampleExpand (VString "${B:boolean}") (fun _ => (Some "0", None))
     = (VBool false, None)
  /\ sampleExpand (VString "${B:boolean:-no}") failingLookup = (VBool false, None)
  /\ sampleExpand (VString "${B:boolean}") (fun _ => (Some "Yes", None))
     = (VString "${B:boolean}", Some "Yes is not a valid boolean")
  /\ sampleExpand (VString "${B:boolean}") (fun _ => (Some "42", None))
     = (VString "${B:boolean}", Some "42 is not a valid boolean").
Proof.
  refine (conj _ (conj _ (conj _ (conj _ _)))).
  - exact (proj1 (boolean_literals sampleOther sampleParseFloat sampleFormatFloat
                    (fun _ => (Some "yes", None)) "B" None "yes"
                    eq_refl eq_refl (or_introl eq_refl))).
  - exact (proj1 (boolean_literals sampleOther sampleParseFloat sampleFormatFloat
                    (fun _ => (Some "0", None)) "B" None "0"
                    eq_refl eq_refl (or_introl eq_refl))).
  - exact (proj1 (boolean_literals sampleOther sampleParseFloat sampleFormatFloat
                    failingLookup "B" (Some "no") "no" eq_refl eq_refl
                    (or_intror (ex_intro _ None (ex_intro _ "no B" (conj eq_refl eq_refl)))))).
  - exact (proj2 (proj1 (boolean_literals sampleOther sampleParseFloat sampleFormatFloat
                    (fun _ => (Some "Yes", None)) "B" None "Yes"
                    eq_refl eq_refl (or_introl eq_refl)))).
  - exact (proj2 (boolean_literals sampleOther sampleParseFloat sampleFormatFloat
                    (fun _ => (Some "42", None)) "B" None "42"
                    eq_refl eq_refl (or_introl eq_refl)) eq_refl).
Defined.

Lemma structure_preserved_witness :
  exists m',
    fst (sampleExpand (VMap [("a", VString "${A}"); ("b", VInt 2)])
           (fun _ => (Some "x", None)))
    = VMap m'
    /\ map fst m' = ["a"; "b"]
    /\ In ("a", VString "x") m'.
Proof.
  destruct (proj2 (proj2 (proj2 (proj2 (proj2
              (structure_preserved sampleOther sampleParseFloat sampleFormatFloat
                 (fun _ => (Some "x", None)))))))
              [("a", VString "${A}"); ("b", VInt 2)])
    as (m' & Hout & Hkeys & Hvalues).
  - repeat constructor; cbn; intuition discriminate.
  - exists m'.
    exact (conj Hout (conj Hkeys (Hvalues "a" (VString "${A}") (or_introl eq_refl)))).
Defined.

Lemma other_node_unchanged_witness :
  sampleExpand (VOther [(1%Z, "${A}")]) (fun _ => (Some "x", None))
  = (VOther [(1%Z, "${A}")], None).
Proof.
  apply (other_node_unchanged sampleOther sampleParseFloat sampleFormatFloat);
    discriminate.
Defined.

(** ** The further properties at concrete inputs *)

Lemma environMap_lookup_witness :
  mapIndex [("A", "2"); ("B", "x=y"); ("", "C")] "A" = Some "2"
  /\ mapIndex [("A", "2"); ("B", "x=y"); ("", "C")] "B" = Some "x=y"
  /\ mapIndex [("A", "2"); ("B", "x=y"); ("", "C")] "C" = None.
Proof.
  exact (conj (environMap_lookup ["A=1"; "B=x=y"; "A=2"; "=C"]
                 [("A", "2"); ("B", "x=y"); ("", "C")] "A" eq_refl)
        (conj (environMap_lookup ["A=1"; "B=x=y"; "A=2"; "=C"]
                 [("A", "2"); ("B", "x=y"); ("", "C")] "B" eq_refl)
              (environMap_lookup ["A=1"; "B=x=y"; "A=2"; "=C"]
                 [("A", "2"); ("B", "x=y"); ("", "C")] "C" eq_refl))).
Defined.

Lemma environMap_panics_witness : environMap ["A=1"; "PATH"; "B=2"] = None.
Proof.
  exact (proj2 (environMap_panics ["A=1"; "PATH"; "B=2"])
           (ex_intro _ "PATH" (conj (or_intror (or_introl eq_refl)) eq_refl))).
Defined.

Lemma environMap_entry_witness :
  mapIndex [("A", "2"); ("B", "x=y")] "B" = Some "x=y".
Proof.
  refine (environMap_entry ["A=1"] ["A=2"] "B" "x=y" [("A", "2"); ("B", "x=y")]
            eq_refl _ eq_refl).
  intros entry v' [<- | []]. simpl. discriminate.
Defined.

Lemma text_without_opening_witness :
  sampleExpand (VString "costs $5 {net} \$") failingLookup
  = (VString "costs $5 {net} \$", None).
Proof.
  exact (text_without_opening sampleOther sampleParseFloat sampleFormatFloat
           failingLookup "costs $5 {net} \$" eq_refl).
Defined.

Lemma two_placeholders_witness :
  sampleExpand (VString "n=${N:number}, x=${X}.") sampleLookup
  = (VString "n=42, x=abc.", None)
  /\ sampleExpand (VString "${A}${B:-1}") failingLookup
     = (VString "${A}1", Some "no A")
  /\ sampleExpand (VString "${A} and ${C:number}") failingLookup
     = (VString "${A} and ${C:number}", Some "no A, no C")
  /\ sampleExpand (VString "${A} and ${C}")
       (fun key => (None, Some (if key =? "A" then "no A" else "disk is at 95%.")))
     = (VString "${A} and ${C}", Some "no A, disk is at 95%!.(MISSING)").
Proof.
  refine (conj _ (conj _ (conj _ _))).
  - exact (two_placeholders sampleOther sampleParseFloat sampleFormatFloat
             sampleLookup "n=" ", x=" "." "N:number" "X"
             ltac:(discriminate) eq_refl ltac:(discriminate) eq_refl
             eq_refl eq_refl eq_refl eq_refl eq_refl).
  - exact (two_placeholders sampleOther sampleParseFloat sampleFormatFloat
             failingLookup "" "" "" "A" "B:-1"
             ltac:(discriminate) eq_refl ltac:(discriminate) eq_refl
             eq_refl eq_refl eq_refl eq_refl eq_refl).
  - exact (two_placeholders sampleOther sampleParseFloat sampleFormatFloat
             failingLookup "" " and " "" "A" "C:number"
             ltac:(discriminate) eq_refl ltac:(discriminate) eq_refl
             eq_refl eq_refl eq_refl eq_refl eq_refl).
  - exact (two_placeholders sampleOther sampleParseFloat sampleFormatFloat
             (fun key => (None, Some (if key =? "A" then "no A" else "disk is at 95%.")))
             "" " and " "" "A" "C"
             ltac:(discriminate) eq_refl ltac:(discriminate) eq_refl
             eq_refl eq_refl eq_refl eq_refl eq_refl).
Defined.

Lemma escape_lasts_one_pass_witness :
  sampleExpand (fst (sampleExpand (VString "\${N:number}") failingLookup)) sampleLookup
  = (VInt 42, None).
Proof.
  exact (escape_lasts_one_pass sampleOther sampleParseFloat sampleFormatFloat
           failingLookup sampleLookup "N:number" ltac:(discriminate) eq_refl).
Defined.

Lemma text_passes_through_witness :
  sampleExpand (VString "a ${X:string} b") (fun _ => (Some "${Y} 007", None))
  = (VString "a ${Y} 007 b", None)
  /\ sampleExpand (VString "${X:string:-0 1}") failingLookup
     = (VString "0 1", None).
Proof.
  split.
  - exact (text_passes_through sampleOther sampleParseFloat sampleFormatFloat
             (fun _ => (Some "${Y} 007", None)) "X" "string" None "${Y} 007" "a " " b"
             eq_refl (or_intror eq_refl) eq_refl (or_introl eq_refl)
             eq_refl eq_refl eq_refl).
  - exact (text_passes_through sampleOther sampleParseFloat sampleFormatFloat
             failingLookup "X" "string" (Some "0 1") "0 1" "" ""
             eq_refl (or_intror eq_refl) eq_refl
             (or_intror (ex_intro _ None (ex_intro _ "no X" (conj eq_refl eq_refl))))
             eq_refl eq_refl eq_refl).
Defined.

Lemma typed_value_inside_text_witness :
  sampleExpand (VString "n=${N:number}") (fun _ => (Some "007", None))
  = (VString "n=7", None)
  /\ sampleExpand (VString "${B:boolean:-yes}!") failingLookup
     = (VString "true!", None).
Proof.
  split.
  - refine (proj1 (typed_value_inside_text sampleOther sampleParseFloat sampleFormatFloat
                     (fun _ => (Some "007", None)) "N" "number" None "007" "n=" ""
                     (EInt 7) eq_refl (or_intror eq_refl) eq_refl (or_introl eq_refl)
                     eq_refl eq_refl eq_refl eq_refl _)).
    left. discriminate.
  - refine (proj1 (typed_value_inside_text sampleOther sampleParseFloat sampleFormatFloat
                     failingLookup "B" "boolean" (Some "yes") "yes" "" "!"
                     (EBool true) eq_refl (or_intror eq_refl) eq_refl
                     (or_intror (ex_intro _ None (ex_intro _ "no B" (conj eq_refl eq_refl))))
                     eq_refl eq_refl eq_refl eq_refl _)).
    right. discriminate.
Defined.

Lemma no_error_iff_elements_witness :
  snd (sampleExpand (VSlice [VString "${N:number}"; VInt 1; VMap []]) sampleLookup)
  = None.
Proof.
  refine (proj2 (proj1 (no_error_iff_elements sampleOther sampleParseFloat
                          sampleFormatFloat sampleLookup)
                   [VString "${N:number}"; VInt 1; VMap []]) _).
  intros x [<- | [<- | [<- | []]]]; reflexivity.
Defined.

Lemma error_is_joined_messages_witness :
  sampleExpand (VSlice [VString "${A}"; VMap [("k", VString "x ${B:number}")]])
    failingLookup
  = (VSlice [VString "${A}"; VMap [("k", VString "x ${B:number}")]],
     Some "no A, no B").
Proof.
  refine (error_is_joined_messages sampleOther sampleParseFloat sampleFormatFloat
            failingLookup
            (VSlice [VString "${A}"; VMap [("k", VString "x ${B:number}")]]) _).
  vm_compute. repeat constructor.
Defined.

Lemma messages_do_not_change_output_witness :
  fst (sampleExpand (VSlice [VString "${A}"; VString "${B:-1}"]) failingLookup)
  = fst (sampleExpand (VSlice [VString "${A}"; VString "${B:-1}"])
           (fun _ => (Some "ignored", Some "not found")))
  /\ (snd (sampleExpand (VSlice [VString "${A}"; VString "${B:-1}"]) failingLookup)
      = None
      <-> snd (sampleExpand (VSlice [VString "${A}"; VString "${B:-1}"])
                 (fun _ => (Some "ignored", Some "not found")))
          = None).
Proof.
  exact (messages_do_not_change_output sampleOther sampleParseFloat sampleFormatFloat
           failingLookup (fun _ => (Some "ignored", Some "not found"))
           (VSlice [VString "${A}"; VString "${B:-1}"])
           (fun _ => I)).
Defined.

Lemma missing_name_is_reported_witness :
  ExpandMap sampleOther sampleParseFloat sampleFormatFloat
    (VString "a ${ENV_UNKNOWN:number} b") [("ENV_A", "a")]
  = (VString "a ${ENV_UNKNOWN:number} b", Some "variable ENV_UNKNOWN is missing")
  /\ ExpandEnv sampleOther sampleParseFloat sampleFormatFloat
       (fun _ => None) (VString "a ${ENV_UNKNOWN:number} b")
     = (VString "a ${ENV_UNKNOWN:number} b",
        Some "environment variable ENV_UNKNOWN is missing").
Proof.
  destruct (missing_name_is_reported sampleOther sampleParseFloat sampleFormatFloat
              "ENV_UNKNOWN" "number" "a " " b"
              eq_refl (or_intror eq_refl) eq_refl eq_refl eq_refl eq_refl)
    as [Hmap Henv].
  exact (conj (Hmap [("ENV_A", "a")] eq_refl) (Henv (fun _ => None) eq_refl)).
Defined.

Lemma placeholder_round_trip_witness :
  "${A:number:-1}"
  = token "A" "number" (Some "1")
  /\ parseValue "${A:-x}}"
     = Some {| name := "A"; format := ""; hasFallback := true; fallback := "x}" |}.
Proof.
  split.
  - exact (proj1 (proj1 (placeholder_round_trip "${A:number:-1}"
                    {| name := "A"; format := "number"; hasFallback := true;
                       fallback := "1" |}) eq_refl)).
  - refine (proj2 (placeholder_round_trip "${A:-x}}"
                     {| name := "A"; format := ""; hasFallback := true;
                        fallback := "x}" |})
              (conj eq_refl (conj _ (conj eq_refl
                 (conj (or_introl eq_refl) (conj eq_refl _)))))); discriminate.
Defined.

Lemma lookup_only_of_valid_names_witness :
  sampleExpand (VSlice [VString "${N:number} ${X}"; VString "${:-1}"]) sampleLookup
  = sampleExpand (VSlice [VString "${N:number} ${X}"; VString "${:-1}"])
      (fun key => if validName key then sampleLookup key else (None, Some "not asked")).
Proof.
  refine (lookup_only_of_valid_names sampleOther sampleParseFloat sampleFormatFloat
            sampleLookup
            (fun key => if validName key then sampleLookup key else (None, Some "not asked"))
            (VSlice [VString "${N:number} ${X}"; VString "${:-1}"]) _).
  intros key Hkey. simpl. rewrite Hkey. reflexivity.
Defined.

Lemma empty_fallback_is_missing_v1_witness :
  expandEnvValue_v1 (fun _ => None) "${ENV_UNKNOWN:-}"
  = inr "environment variable ENV_UNKNOWN is missing"
  /\ expandEnvValue_v1 (fun _ => None) "${ENV_UNKNOWN:number:-42}" = inl (EInt 42).
Proof.
  destruct (empty_fallback_is_missing_v1 (fun _ => None) "ENV_UNKNOWN" "") as (H & _ & _);
    [discriminate | reflexivity | now left | reflexivity |].
  destruct (empty_fallback_is_missing_v1 (fun _ => None) "ENV_UNKNOWN" "number")
    as (_ & _ & H');
    [discriminate | reflexivity | now right | reflexivity |].
  split; [exact H | refine (H' "42" _ eq_refl); discriminate].
Defined.

Lemma expandEnvValue_v1_agrees_witness :
  expandEnvValue_v1 (fun key => if key =? "B" then Some "yes" else None)
    "${B:boolean:-no}"
  = expandValue sampleParseFloat "${B:boolean:-no}"
      (envLookup (fun key => if key =? "B" then Some "yes" else None)).
Proof.
  refine (expandEnvValue_v1_agrees sampleParseFloat
            (fun key => if key =? "B" then Some "yes" else None)
            "${B:boolean:-no}" _).
  intros p Hp. vm_compute in Hp. injection Hp as <-.
  split; simpl; discriminate.
Defined.
